(** * Keystore: Web3 Secret Storage (version 3) as implemented by
      [ox/_esm/core/Keystore.js]

    A shallow embedding of the keystore codec ([encrypt], [decrypt]) and of
    the key derivations ([pbkdf2], [pbkdf2Async], [scrypt], [scryptAsync],
    [defineKey]), together with the byte codec and the primitives they call.

    Conventions.
    - A [Uint8Array] is a [list byte].
    - A JavaScript string is a [string]; a [Hex.Hex] value is the whole
      string, prefix included.
    - A thrown exception (or rejected promise) is [Err e]; a returned value
      (or fulfilled promise) is [Ok v].
    - [crypto.getRandomValues] and [crypto.randomUUID] draw from an explicit
      entropy tape that is threaded through the code in evaluation order. *)

From Stdlib Require Import ZArith List Bool Lia.
From Stdlib.Strings Require Import String Ascii Byte.
Import ListNotations.

Set Implicit Arguments.

Definition bytes : Type := list byte.

(** ** Failures *)

Inductive error : Type :=
| CorruptKeystore            (* new Error('corrupt keystore'), Keystore.js:44 *)
| InvalidByteSequence        (* Errors.BaseError raised by Bytes.fromHex *)
| SliceOffsetOutOfBounds     (* Bytes.SliceOffsetOutOfBoundsError *)
| InputLength                (* noble: a byte array of the wrong length *)
| InvalidCost.               (* noble: a work factor it refuses *)

Inductive result (A : Type) : Type :=
| Ok (a : A)
| Err (e : error).

Arguments Ok {A} a.
Arguments Err {A} e.

Definition bind {A B : Type} (r : result A) (f : A -> result B) : result B :=
  match r with
  | Ok a => f a
  | Err e => Err e
  end.

Declare Scope result_scope.
Delimit Scope result_scope with result.
Notation "'let*' x ':=' r 'in' k" := (bind r (fun x => k))
  (at level 10, x name, r at level 100, k at level 200) : result_scope.
Open Scope result_scope.

Definition is_ok {A : Type} (r : result A) : bool :=
  match r with Ok _ => true | Err _ => false end.

(** ** Bytes and machine words *)

Definition Z_of_byte (b : byte) : Z := Z.of_N (Byte.to_N b).

Definition byte_of_Z (z : Z) : byte :=
  match Byte.of_N (Z.to_N (z mod 256)) with
  | Some b => b
  | None => x00
  end.

(** ** Hex.js / Bytes.js *)

Module Hex.

(** The sixteen lowercase digits. *)
Definition digit (n : N) : ascii :=
  if (n <? 10)%N then ascii_of_N (48 + n) else ascii_of_N (87 + n).

Definition hexes (b : byte) : string :=
  let n := Byte.to_N b in
  String (digit (n / 16)) (String (digit (n mod 16)) EmptyString).

Fixpoint digits (value : bytes) : string :=
  match value with
  | [] => EmptyString
  | b :: rest => hexes b ++ digits rest
  end.

(** Modelled from the spec: [Hex.fromBytes] of ox's Hex.js, which is not
    under src/ (the spec's ByteCodec, bytes to hex).  Every byte becomes
    two lowercase digits, most significant nibble first, and the text
    carries the [0x] prefix. *)
Definition fromBytes (value : bytes) : string := "0x" ++ digits value.

(** [String.prototype.slice(2)]: the text without its first two
    characters. *)
Definition slice2 (s : string) : string :=
  match s with
  | String _ (String _ rest) => rest
  | _ => EmptyString
  end.

(** A text of lowercase hex digits only. *)
Definition is_lower_digit (c : ascii) : bool :=
  let n := N_of_ascii c in
  ((48 <=? n) && (n <=? 57) || (97 <=? n) && (n <=? 102))%N.

Fixpoint is_lower_hex (s : string) : bool :=
  match s with
  | EmptyString => true
  | String c rest => is_lower_digit c && is_lower_hex rest
  end.

End Hex.

(** The bytes the platform's random source will deliver, in order. *)
Definition Entropy : Type := nat -> byte.

(** The value a caller may pass where the source accepts
    [Bytes.Bytes | Hex.Hex]. *)
Inductive BytesLike : Type :=
| OfBytes (value : bytes)
| OfHex (value : string).

Module Bytes.

Definition size (value : bytes) : nat := List.length value.

(** Modelled from the spec: internal [charCodeToBase16] of ox's Bytes.js,
    which is not under src/ (ByteCodec, hex to bytes): digits [0-9], [A-F]
    and [a-f] have a value, every other character has none. *)
Definition charCodeToBase16 (char : ascii) : option N :=
  let c := N_of_ascii char in
  if ((48 <=? c) && (c <=? 57))%N then Some (c - 48)%N
  else if ((65 <=? c) && (c <=? 70))%N then Some (c - 55)%N
  else if ((97 <=? c) && (c <=? 102))%N then Some (c - 87)%N
  else None.

Fixpoint fromPairs (hexString : string) : result bytes :=
  match hexString with
  | EmptyString => Ok []
  | String l EmptyString => Err InvalidByteSequence
  | String l (String r rest) =>
      match charCodeToBase16 l, charCodeToBase16 r with
      | Some nibbleLeft, Some nibbleRight =>
          let* tail := fromPairs rest in
          Ok (byte_of_Z (Z.of_N (nibbleLeft * 16 + nibbleRight)) :: tail)
      | _, _ => Err InvalidByteSequence
      end
  end.

(** Modelled from the spec: [Bytes.fromHex] of ox's Bytes.js, which is not
    under src/.  The two prefix characters are dropped, a text of odd
    length gets a leading [0], and the first pair that is not two hex
    digits raises the invalid-byte-sequence error. *)
Definition fromHex (value : string) : result bytes :=
  let hexString := Hex.slice2 value in
  let hexString :=
    if Nat.odd (String.length hexString) then String "0" hexString
    else hexString in
  fromPairs hexString.

(** Modelled from the spec: [Bytes.from] of ox's Bytes.js: a byte array is
    returned as it is and a text goes through [fromHex]. *)
Definition from (value : BytesLike) : result bytes :=
  match value with
  | OfBytes b => Ok b
  | OfHex h => fromHex h
  end.

(** Modelled from the spec: [Bytes.toHex] of ox's Bytes.js, which hands
    over to [Hex.fromBytes]. *)
Definition toHex (value : bytes) : string := Hex.fromBytes value.

(** Modelled from the spec: [Bytes.slice] of ox's Bytes.js: a positive
    start offset past the last index raises, otherwise the result is
    [subarray(start, end)]. *)
Definition slice (value : bytes) (start end_ : nat) : result bytes :=
  if (0 <? start)%nat && (size value - 1 <? start)%nat
  then Err SliceOffsetOutOfBounds
  else Ok (firstn (end_ - start) (skipn start value)).

(** Modelled from the spec: [Bytes.concat] of ox's Bytes.js on two
    arrays: the first followed by the second. *)
Definition concat (a b : bytes) : bytes := a ++ b.

(** Modelled from the spec: [Bytes.isEqual] (noble's [equalBytes]): equal
    lengths and no differing byte. *)
Fixpoint isEqual (bytesA bytesB : bytes) : bool :=
  match bytesA, bytesB with
  | [], [] => true
  | a :: ra, b :: rb => Byte.eqb a b && isEqual ra rb
  | _, _ => false
  end.

(** Modelled from the spec: [Bytes.random] of ox's Bytes.js
    ([crypto.getRandomValues]): the next [length] bytes of the tape. *)
Definition random (length : nat) (tape : Entropy) : bytes * Entropy :=
  (map tape (seq 0 length), fun i => tape (length + i)%nat).

End Bytes.

(** * Primitives of @noble/hashes and @noble/ciphers

    Keystore.js imports these packages; they are not under src/.  What
    follows are the algorithms the format names (Keccak-256, AES-128 in
    counter mode, PBKDF2 with HMAC-SHA256, scrypt), written on octets and
    words held in [Z] and checked against published answers further down. *)

Module Word.
Local Open Scope Z_scope.

Definition mask32 : Z := 0xffffffff.
Definition mask64 : Z := 0xffffffffffffffff.
Definition u32 (x : Z) : Z := Z.land x mask32.
Definition u64 (x : Z) : Z := Z.land x mask64.
Definition add32 (a b : Z) : Z := u32 (a + b).
Definition rotr32 (x n : Z) : Z :=
  Z.lor (Z.shiftr x n) (u32 (Z.shiftl x (32 - n))).
Definition rotl32 (x n : Z) : Z :=
  Z.lor (u32 (Z.shiftl x n)) (Z.shiftr x (32 - n)).
Definition rotl64 (x n : Z) : Z :=
  Z.lor (u64 (Z.shiftl x n)) (Z.shiftr x (64 - n)).
Definition not32 (x : Z) : Z := Z.lxor x mask32.
Definition not64 (x : Z) : Z := Z.lxor x mask64.

(** Octets to a word, most significant first ([be]) or last ([le]). *)
Definition be (b : list Z) : Z := fold_left (fun acc x => acc * 256 + x) b 0.
Definition le (b : list Z) : Z := fold_right (fun x acc => x + 256 * acc) 0 b.

Definition be32_bytes (w : Z) : list Z :=
  [Z.land (Z.shiftr w 24) 255; Z.land (Z.shiftr w 16) 255;
   Z.land (Z.shiftr w 8) 255; Z.land w 255].
Definition le32_bytes (w : Z) : list Z :=
  [Z.land w 255; Z.land (Z.shiftr w 8) 255;
   Z.land (Z.shiftr w 16) 255; Z.land (Z.shiftr w 24) 255].
Definition le64_bytes (w : Z) : list Z :=
  le32_bytes (u32 w) ++ le32_bytes (Z.shiftr w 32).
Definition be64_bytes (w : Z) : list Z :=
  be32_bytes (Z.shiftr w 32) ++ be32_bytes (u32 w).

(** The first [count] pieces of [n] elements each. *)
Fixpoint chunks {A : Type} (n count : nat) (l : list A) : list (list A) :=
  match count with
  | O => []
  | S c => firstn n l :: chunks n c (skipn n l)
  end.

Definition xors (a b : list Z) : list Z :=
  map (fun p => Z.lxor (fst p) (snd p)) (combine a b).

(** A [for] loop that runs its body [iters] times on the state. *)
Fixpoint loop {S : Type} (iters : nat) (cb : S -> S) (s : S) : S :=
  match iters with
  | O => s
  | S n => loop n cb (cb s)
  end.
End Word.

(** A hash function as noble passes it around. *)
Record HashFn : Type := {
  digest : list Z -> list Z;
  blockLen : nat;
  outputLen : nat
}.

Module Sha256.
Import Word.
Local Open Scope Z_scope.

(** The first primes, by trial division. *)
Definition isPrime (n : Z) : bool :=
  forallb (fun d => negb (n mod Z.of_nat d =? 0)) (seq 2 (Z.to_nat n - 2)).

Definition primes (count : nat) : list Z :=
  firstn count (filter isPrime (map Z.of_nat (seq 2 320))).

(** The integer k-th root, one bit at a time from bit 40 down. *)
Definition iroot (k n : Z) : Z :=
  fold_left
    (fun r b => let c := r + 2 ^ Z.of_nat b in if c ^ k <=? n then c else r)
    (rev (seq 0 41)) 0.

(** Round constants: the first 32 bits of the fractional parts of the cube
    roots of the first 64 primes. *)
Definition K : list Z :=
  Eval vm_compute in map (fun p => u32 (iroot 3 (p * 2 ^ 96))) (primes 64).

(** Initial state: the same of the square roots of the first 8 primes. *)
Definition IV : list Z :=
  Eval vm_compute in map (fun p => u32 (iroot 2 (p * 2 ^ 64))) (primes 8).

Definition sigma0 (x : Z) : Z :=
  Z.lxor (Z.lxor (rotr32 x 7) (rotr32 x 18)) (Z.shiftr x 3).
Definition sigma1 (x : Z) : Z :=
  Z.lxor (Z.lxor (rotr32 x 17) (rotr32 x 19)) (Z.shiftr x 10).
Definition Sigma0 (x : Z) : Z :=
  Z.lxor (Z.lxor (rotr32 x 2) (rotr32 x 13)) (rotr32 x 22).
Definition Sigma1 (x : Z) : Z :=
  Z.lxor (Z.lxor (rotr32 x 6) (rotr32 x 11)) (rotr32 x 25).
Definition Ch (x y z : Z) : Z := Z.lxor (Z.land x y) (Z.land (not32 x) z).
Definition Maj (x y z : Z) : Z :=
  Z.lxor (Z.lxor (Z.land x y) (Z.land x z)) (Z.land y z).

(** Message schedule; [w] holds W[t-1], W[t-2], ... *)
Fixpoint schedule (n : nat) (w : list Z) : list Z :=
  match n with
  | O => w
  | S n' =>
      let next := add32 (add32 (sigma1 (nth 1 w 0)) (nth 6 w 0))
                        (add32 (sigma0 (nth 14 w 0)) (nth 15 w 0)) in
      schedule n' (next :: w)
  end.

Definition round (s : list Z) (kw : Z * Z) : list Z :=
  match s with
  | [a; b; c; d; e; f; g; h] =>
      let t1 := add32 (add32 (add32 h (Sigma1 e)) (add32 (Ch e f g) (fst kw)))
                      (snd kw) in
      let t2 := add32 (Sigma0 a) (Maj a b c) in
      [add32 t1 t2; a; b; c; add32 d t1; e; f; g]
  | _ => s
  end.

Definition compress (H block : list Z) : list Z :=
  let W := rev (schedule 48 (rev (map be (chunks 4 16 block)))) in
  let s := fold_left round (combine K W) H in
  map (fun p => add32 (fst p) (snd p)) (combine H s).

Definition pad (msg : list Z) : list Z :=
  let len := Z.of_nat (List.length msg) in
  msg ++ [128] ++ repeat 0 (Z.to_nat ((55 - len) mod 64)) ++ be64_bytes (8 * len).

(** Modelled from the spec: SHA-256 (the hash of the spec's
    PBKDF2-HMAC-SHA256), in place of @noble/hashes/sha2, which is not under
    src/. *)
Definition hash (msg : list Z) : list Z :=
  let m := pad msg in
  flat_map be32_bytes
    (fold_left compress (chunks 64 (List.length m / 64) m) IV).
End Sha256.

(** Modelled from the spec: [sha256] of @noble/hashes/sha2, which is not
    under src/: the SHA-256 behind the spec's PBKDF2-HMAC-SHA256. *)
Definition sha256 : HashFn :=
  {| digest := Sha256.hash; blockLen := 64; outputLen := 32 |}.

Module Hmac.
Import Word.
Local Open Scope Z_scope.

(** Modelled from the spec: HMAC over a hash (the pseudorandom function of
    the spec's PBKDF2), in place of @noble/hashes/hmac, which is not under
    src/. *)
Definition hmac (h : HashFn) (key msg : list Z) : list Z :=
  let key :=
    if (blockLen h <? List.length key)%nat then digest h key else key in
  let key := key ++ repeat 0 (blockLen h - List.length key) in
  let ipad := map (Z.lxor 0x36) key in
  let opad := map (Z.lxor 0x5c) key in
  digest h (opad ++ digest h (ipad ++ msg)).
End Hmac.

Module Pbkdf2.
Import Word.
Local Open Scope Z_scope.

(** One iteration on (u, Ti): u becomes PRF(u) and is folded into Ti. *)
Definition step (h : HashFn) (password : list Z)
    (s : list Z * list Z) : list Z * list Z :=
  let u := Hmac.hmac h password (fst s) in
  (u, xors (snd s) u).

Definition first (h : HashFn) (password salt : list Z) (ti : nat) : list Z :=
  Hmac.hmac h password (salt ++ be32_bytes (Z.of_nat ti)).

Definition block (h : HashFn) (password salt : list Z) (c ti : nat) : list Z :=
  let u := first h password salt ti in
  snd (loop (c - 1) (step h password) (u, u)).

Definition blocks (h : HashFn) (dkLen : nat) : nat :=
  (dkLen + (outputLen h - 1)) / outputLen h.

(** Modelled from the spec: PBKDF2 (section 4.1), [c] iterations and
    [dkLen] octets out, in place of @noble/hashes/pbkdf2, which is not under
    src/. *)
Definition derive (h : HashFn) (password salt : list Z) (c dkLen : nat)
    : list Z :=
  firstn dkLen
    (flat_map (block h password salt c) (seq 1 (blocks h dkLen))).
End Pbkdf2.

Module Keccak.
Import Word.
Local Open Scope Z_scope.

Definition RC : list Z :=
  [0x0000000000000001; 0x0000000000008082; 0x800000000000808a;
   0x8000000080008000; 0x000000000000808b; 0x0000000080000001;
   0x8000000080008081; 0x8000000000008009; 0x000000000000008a;
   0x0000000000000088; 0x0000000080008009; 0x000000008000000a;
   0x000000008000808b; 0x800000000000008b; 0x8000000000008089;
   0x8000000000008003; 0x8000000000008002; 0x8000000000000080;
   0x000000000000800a; 0x800000008000000a; 0x8000000080008081;
   0x8000000000008080; 0x0000000080000001; 0x8000000080008008].

(** Rotation offsets; lane (x, y) sits at index x + 5 y. *)
Definition ROT : list Z :=
  [0; 1; 62; 28; 27; 36; 44; 6; 55; 20; 3; 10; 43;
   25; 39; 41; 45; 15; 21; 8; 18; 2; 61; 56; 14].

Definition lanes : list nat := seq 0 25.

Definition lane (A : list Z) (x y : nat) : Z :=
  nth ((x mod 5) + 5 * (y mod 5)) A 0.

Definition theta (A : list Z) : list Z :=
  let C := map (fun x =>
              Z.lxor (Z.lxor (Z.lxor (Z.lxor (lane A x 0) (lane A x 1))
                                     (lane A x 2)) (lane A x 3)) (lane A x 4))
               (seq 0 5) in
  let D := map (fun x =>
              Z.lxor (nth ((x + 4) mod 5) C 0)
                     (rotl64 (nth ((x + 1) mod 5) C 0) 1))
               (seq 0 5) in
  map (fun i => Z.lxor (nth i A 0) (nth (i mod 5) D 0)) lanes.

(** B[y, 2x + 3y] = rot(A[x, y]), read from the target: the lane landing
    on (X, Y) comes from x = X + 3 Y, y = X. *)
Definition rho_pi (A : list Z) : list Z :=
  map (fun i =>
         let X := (i mod 5)%nat in
         let Y := (i / 5)%nat in
         let x := ((X + 3 * Y) mod 5)%nat in
         rotl64 (lane A x X) (nth (x + 5 * X) ROT 0))
      lanes.

Definition chi (B : list Z) : list Z :=
  map (fun i =>
         let x := (i mod 5)%nat in
         let y := (i / 5)%nat in
         Z.lxor (lane B x y)
                (Z.land (not64 (lane B (x + 1) y)) (lane B (x + 2) y)))
      lanes.

Definition iota (rc : Z) (A : list Z) : list Z :=
  match A with
  | a :: rest => Z.lxor a rc :: rest
  | [] => []
  end.

Definition round (A : list Z) (rc : Z) : list Z :=
  iota rc (chi (rho_pi (theta A))).

Definition keccakf (A : list Z) : list Z := fold_left round RC A.

Definition rate : nat := 136.

Definition pad (suffix : Z) (msg : list Z) : list Z :=
  let q := (rate - (List.length msg mod rate))%nat in
  match q with
  | 1%nat => msg ++ [Z.lor suffix 128]
  | _ => msg ++ [suffix] ++ repeat 0 (q - 2) ++ [128]
  end.

Definition absorb (A block : list Z) : list Z :=
  let ws := map le (chunks 8 (rate / 8) block) in
  keccakf (map (fun i => Z.lxor (nth i A 0) (nth i ws 0)) lanes).

Definition sponge (suffix : Z) (outLen : nat) (msg : list Z) : list Z :=
  let m := pad suffix msg in
  let A := fold_left absorb (chunks rate (List.length m / rate) m)
                     (repeat 0 25) in
  firstn outLen (flat_map le64_bytes A).

(** Modelled from the spec: Keccak-256 (section 4.3), in place of
    @noble/hashes/sha3, which is not under src/: rate 136, domain suffix
    0x01, 32 octets out. *)
Definition keccak_256 (msg : list Z) : list Z := sponge 1 32 msg.
End Keccak.

Module Aes.
Import Word.
Local Open Scope Z_scope.

Definition sbox : list Z :=
  [
     0x63; 0x7c; 0x77; 0x7b; 0xf2; 0x6b; 0x6f; 0xc5; 0x30; 0x01; 0x67; 0x2b; 0xfe; 0xd7; 0xab; 0x76;
     0xca; 0x82; 0xc9; 0x7d; 0xfa; 0x59; 0x47; 0xf0; 0xad; 0xd4; 0xa2; 0xaf; 0x9c; 0xa4; 0x72; 0xc0;
     0xb7; 0xfd; 0x93; 0x26; 0x36; 0x3f; 0xf7; 0xcc; 0x34; 0xa5; 0xe5; 0xf1; 0x71; 0xd8; 0x31; 0x15;
     0x04; 0xc7; 0x23; 0xc3; 0x18; 0x96; 0x05; 0x9a; 0x07; 0x12; 0x80; 0xe2; 0xeb; 0x27; 0xb2; 0x75;
     0x09; 0x83; 0x2c; 0x1a; 0x1b; 0x6e; 0x5a; 0xa0; 0x52; 0x3b; 0xd6; 0xb3; 0x29; 0xe3; 0x2f; 0x84;
     0x53; 0xd1; 0x00; 0xed; 0x20; 0xfc; 0xb1; 0x5b; 0x6a; 0xcb; 0xbe; 0x39; 0x4a; 0x4c; 0x58; 0xcf;
     0xd0; 0xef; 0xaa; 0xfb; 0x43; 0x4d; 0x33; 0x85; 0x45; 0xf9; 0x02; 0x7f; 0x50; 0x3c; 0x9f; 0xa8;
     0x51; 0xa3; 0x40; 0x8f; 0x92; 0x9d; 0x38; 0xf5; 0xbc; 0xb6; 0xda; 0x21; 0x10; 0xff; 0xf3; 0xd2;
     0xcd; 0x0c; 0x13; 0xec; 0x5f; 0x97; 0x44; 0x17; 0xc4; 0xa7; 0x7e; 0x3d; 0x64; 0x5d; 0x19; 0x73;
     0x60; 0x81; 0x4f; 0xdc; 0x22; 0x2a; 0x90; 0x88; 0x46; 0xee; 0xb8; 0x14; 0xde; 0x5e; 0x0b; 0xdb;
     0xe0; 0x32; 0x3a; 0x0a; 0x49; 0x06; 0x24; 0x5c; 0xc2; 0xd3; 0xac; 0x62; 0x91; 0x95; 0xe4; 0x79;
     0xe7; 0xc8; 0x37; 0x6d; 0x8d; 0xd5; 0x4e; 0xa9; 0x6c; 0x56; 0xf4; 0xea; 0x65; 0x7a; 0xae; 0x08;
     0xba; 0x78; 0x25; 0x2e; 0x1c; 0xa6; 0xb4; 0xc6; 0xe8; 0xdd; 0x74; 0x1f; 0x4b; 0xbd; 0x8b; 0x8a;
     0x70; 0x3e; 0xb5; 0x66; 0x48; 0x03; 0xf6; 0x0e; 0x61; 0x35; 0x57; 0xb9; 0x86; 0xc1; 0x1d; 0x9e;
     0xe1; 0xf8; 0x98; 0x11; 0x69; 0xd9; 0x8e; 0x94; 0x9b; 0x1e; 0x87; 0xe9; 0xce; 0x55; 0x28; 0xdf;
     0x8c; 0xa1; 0x89; 0x0d; 0xbf; 0xe6; 0x42; 0x68; 0x41; 0x99; 0x2d; 0x0f; 0xb0; 0x54; 0xbb; 0x16
  ].

Definition sub (b : Z) : Z := nth (Z.to_nat b) sbox 0.

Definition xtime (b : Z) : Z :=
  let d := Z.land (Z.shiftl b 1) 255 in
  if Z.testbit b 7 then Z.lxor d 0x1b else d.

Definition rcon : list Z :=
  [0x01; 0x02; 0x04; 0x08; 0x10; 0x20; 0x40; 0x80; 0x1b; 0x36].

Definition nextRoundKey (k : list Z) (rc : Z) : list Z :=
  let g i := nth i k 0 in
  let w0 := xors (firstn 4 k)
              [Z.lxor (sub (g 13%nat)) rc; sub (g 14%nat);
               sub (g 15%nat); sub (g 12%nat)] in
  let w1 := xors (firstn 4 (skipn 4 k)) w0 in
  let w2 := xors (firstn 4 (skipn 8 k)) w1 in
  let w3 := xors (firstn 4 (skipn 12 k)) w2 in
  w0 ++ w1 ++ w2 ++ w3.

Fixpoint expandFrom (k : list Z) (rcs : list Z) : list (list Z) :=
  match rcs with
  | [] => [k]
  | rc :: rest => k :: expandFrom (nextRoundKey k rc) rest
  end.

(** The eleven round keys of a 16-octet key. *)
Definition expandKey (key : list Z) : list (list Z) := expandFrom key rcon.

(** The state is column-major: row r of column c sits at index r + 4 c. *)
Definition cells : list nat := seq 0 16.

Definition subBytes (s : list Z) : list Z := map sub s.

Definition shiftRows (s : list Z) : list Z :=
  map (fun i =>
         let r := (i mod 4)%nat in
         let c := (i / 4)%nat in
         nth (r + 4 * ((c + r) mod 4)) s 0)
      cells.

Definition mixColumns (s : list Z) : list Z :=
  map (fun i =>
         let r := (i mod 4)%nat in
         let c := (i / 4)%nat in
         let a j := nth (((r + j) mod 4) + 4 * c) s 0 in
         Z.lxor (Z.lxor (Z.lxor (xtime (a 0%nat))
                                (Z.lxor (xtime (a 1%nat)) (a 1%nat)))
                        (a 2%nat))
                (a 3%nat))
      cells.

Definition addRoundKey (k s : list Z) : list Z :=
  map (fun i => Z.lxor (nth i s 0) (nth i k 0)) cells.

Definition middle (s k : list Z) : list Z :=
  addRoundKey k (mixColumns (shiftRows (subBytes s))).

(** Modelled from the spec: the AES-128 block encryption behind the spec's
    CipherEngine (section 4.2), in place of @noble/ciphers/aes, which is not
    under src/. *)
Definition encryptBlock (xk : list (list Z)) (block : list Z) : list Z :=
  let s := addRoundKey (nth 0 xk []) block in
  let s := fold_left middle (firstn 9 (skipn 1 xk)) s in
  addRoundKey (nth 10 xk []) (shiftRows (subBytes s)).

(** The counter is one 128-bit big-endian number and wraps around. *)
Definition increment (ctr : list Z) : list Z :=
  let n := (be ctr + 1) mod 2 ^ 128 in
  map (fun i => Z.land (Z.shiftr n (8 * (15 - Z.of_nat i))) 255) cells.

Fixpoint keystream (xk : list (list Z)) (ctr : list Z) (blocks : nat)
    : list Z :=
  match blocks with
  | O => []
  | S n => encryptBlock xk ctr ++ keystream xk (increment ctr) n
  end.
End Aes.

Module Salsa.
Import Word.
Local Open Scope Z_scope.

Definition quarter (y0 y1 y2 y3 : Z) : Z * Z * Z * Z :=
  let y1 := Z.lxor y1 (rotl32 (add32 y0 y3) 7) in
  let y2 := Z.lxor y2 (rotl32 (add32 y1 y0) 9) in
  let y3 := Z.lxor y3 (rotl32 (add32 y2 y1) 13) in
  let y0 := Z.lxor y0 (rotl32 (add32 y3 y2) 18) in
  (y0, y1, y2, y3).

Definition doubleRound (input : list Z) : list Z :=
  match input with
  | [z0; z1; z2; z3; z4; z5; z6; z7; z8; z9; z10; z11; z12; z13; z14; z15] =>
      let '(z0, z4, z8, z12) := quarter z0 z4 z8 z12 in
      let '(z5, z9, z13, z1) := quarter z5 z9 z13 z1 in
      let '(z10, z14, z2, z6) := quarter z10 z14 z2 z6 in
      let '(z15, z3, z7, z11) := quarter z15 z3 z7 z11 in
      let '(z0, z1, z2, z3) := quarter z0 z1 z2 z3 in
      let '(z5, z6, z7, z4) := quarter z5 z6 z7 z4 in
      let '(z10, z11, z8, z9) := quarter z10 z11 z8 z9 in
      let '(z15, z12, z13, z14) := quarter z15 z12 z13 z14 in
      [z0; z1; z2; z3; z4; z5; z6; z7; z8; z9; z10; z11; z12; z13; z14; z15]
  | _ => input
  end.

(** Modelled from the spec: the Salsa20/8 core inside scrypt, on sixteen
    32-bit words; part of @noble/hashes/scrypt, which is not under src/. *)
Definition core (input : list Z) : list Z :=
  let x := doubleRound (doubleRound (doubleRound (doubleRound input))) in
  map (fun p => add32 (fst p) (snd p)) (combine x input).
End Salsa.

Module Scrypt.
Import Word.
Local Open Scope Z_scope.

(** A block is sixteen words; the working value is a list of 2r blocks. *)
Definition Blocks : Type := list (list Z).

Fixpoint mix (X : list Z) (B : Blocks) : Blocks :=
  match B with
  | [] => []
  | b :: rest => let X' := Salsa.core (xors X b) in X' :: mix X' rest
  end.

Fixpoint evens {A : Type} (l : list A) : list A :=
  match l with
  | a :: _ :: rest => a :: evens rest
  | [a] => [a]
  | [] => []
  end.

Definition odds {A : Type} (l : list A) : list A := evens (tl l).

Definition BlockMix (B : Blocks) : Blocks :=
  let Y := mix (last B []) B in
  evens Y ++ odds Y.

Definition xorBlocks (a b : Blocks) : Blocks :=
  map (fun p => xors (fst p) (snd p)) (combine a b).

(** First loop body: V[i] = BlockMix(V[i-1]); [V] is kept newest first. *)
Definition fillStep (V : list Blocks) : list Blocks :=
  BlockMix (hd [] V) :: V.

(** Second loop body: j = Integerify(X) mod N; X = BlockMix(X xor V[j]). *)
Definition stirStep (N : nat) (V : list Blocks) (X : Blocks) : Blocks :=
  let j := Z.to_nat (nth 0 (last X []) 0 mod Z.of_nat N) in
  BlockMix (xorBlocks X (nth j V [])).

Definition afterFill (V : list Blocks) : list Blocks * Blocks :=
  (rev V, BlockMix (hd [] V)).

Definition roMix (N : nat) (B : Blocks) : Blocks :=
  let '(V, X) := afterFill (loop (N - 1) fillStep [B]) in
  loop N (stirStep N V) X.

Definition words (b : list Z) : Blocks :=
  chunks 16 (List.length b / 64) (map le (chunks 4 (List.length b / 4) b)).

Definition unwords (X : Blocks) : list Z := flat_map (flat_map le32_bytes) X.

Definition init (password salt : list Z) (r p : nat) : list (list Z) :=
  chunks (128 * r) p (Pbkdf2.derive sha256 password salt 1 (p * (128 * r))).

Definition output (password : list Z) (B : list (list Z)) (dkLen : nat)
    : list Z :=
  Pbkdf2.derive sha256 password (List.concat B) 1 dkLen.

(** Modelled from the spec: scrypt (section 4.1) with cost [N], block size
    [r] and parallelization [p], in place of @noble/hashes/scrypt, which is
    not under src/. *)
Definition derive (password salt : list Z) (N r p dkLen : nat) : list Z :=
  output password
    (map (fun b => unwords (roMix N (words b))) (init password salt r p))
    dkLen.
End Scrypt.

(** ** Promises and the event loop *)

(** A promise that settles after finitely many turns of the event loop. *)
Inductive Async (A : Type) : Type :=
| Now (a : A)
| Later (next : Async A).

Arguments Now {A} a.
Arguments Later {A} next.

(** The value a promise settles to. *)
Fixpoint run {A : Type} (p : Async A) : A :=
  match p with
  | Now a => a
  | Later next => run next
  end.

Fixpoint andThen {A B : Type} (p : Async A) (k : A -> Async B) : Async B :=
  match p with
  | Now a => k a
  | Later next => Later (andThen next k)
  end.

(** [await p]: the continuation resumes on a later turn. *)
Definition await {A B : Type} (p : Async A) (k : A -> Async B) : Async B :=
  Later (andThen p k).

(** What the wall clock will answer: [clock i] says whether the tick budget
    is spent at the i-th time it is asked. *)
Definition Clock : Type := nat -> bool.

Definition elapse (clock : Clock) : Clock := fun i => clock (S i).

(** Modelled from the spec: [asyncLoop] of @noble/hashes/utils, which is not
    under src/ (the spec's non-blocking variant): the body runs [iters]
    times and control goes back to the event loop whenever the tick budget is
    spent. *)
Fixpoint asyncLoop {S : Type} (iters : nat) (clock : Clock) (cb : S -> S)
    (s : S) : Async (S * Clock) :=
  match iters with
  | O => Now (s, clock)
  | S n =>
      let s' := cb s in
      if clock O then Later (asyncLoop n (elapse clock) cb s')
      else asyncLoop n (elapse clock) cb s'
  end.

Module Noble.

Definition octets (b : bytes) : list Z := map Z_of_byte b.
Definition pack (l : list Z) : bytes := map byte_of_Z l.

(** A text is taken as the octets of its UTF-8 form. *)
Definition utf8ToBytes (s : string) : list Z :=
  map Z_of_byte (list_byte_of_string s).

(** Modelled from the spec: [keccak_256] of @noble/hashes/sha3, which is
    not under src/: the Keccak-256 digest of the spec's IntegrityGuard. *)
Definition keccak_256 (data : bytes) : bytes :=
  pack (Keccak.keccak_256 (octets data)).

Definition xor_bits (a b : bool * (bool * (bool * (bool * (bool * (bool *
    (bool * bool))))))) :=
  let '(a0, (a1, (a2, (a3, (a4, (a5, (a6, a7))))))) := a in
  let '(b0, (b1, (b2, (b3, (b4, (b5, (b6, b7))))))) := b in
  (xorb a0 b0, (xorb a1 b1, (xorb a2 b2, (xorb a3 b3, (xorb a4 b4,
    (xorb a5 b5, (xorb a6 b6, xorb a7 b7))))))).

Definition xor_byte (a b : byte) : byte :=
  Byte.of_bits (xor_bits (Byte.to_bits a) (Byte.to_bits b)).

Definition xor_bytes (data stream : bytes) : bytes :=
  map (fun p => xor_byte (fst p) (snd p)) (combine data stream).

(** Modelled from the spec: the cipher object of [ctr] in
    @noble/ciphers/aes, which is not under src/ (the spec's CipherEngine):
    AES-128 as a stream cipher in counter mode, the iv being the first
    counter block; no padding. *)
Record Cipher : Type := {
  encrypt : bytes -> bytes;
  decrypt : bytes -> bytes
}.

Definition processCtr (key nonce buf : bytes) : bytes :=
  let xk := Aes.expandKey (octets key) in
  xor_bytes buf
    (pack (Aes.keystream xk (octets nonce) ((List.length buf + 15) / 16))).

(** Modelled from the spec: [ctr(key, nonce)]: the key is 16 bytes (only
    AES-128 is modelled, the one key size Keystore.js hands over) and the
    nonce is exactly one block; any other length is refused. *)
Definition ctr (key nonce : bytes) : result Cipher :=
  if (List.length key =? 16)%nat && (List.length nonce =? 16)%nat
  then Ok {| encrypt := processCtr key nonce;
             decrypt := processCtr key nonce |}
  else Err InputLength.

Definition maxSafeInteger : Z := 9007199254740991.

(** Modelled from the spec: what noble's PBKDF2, which is not under src/,
    takes as normal input (section 4.1): an iteration count that is a safe
    integer and at least 1; any other is refused. *)
Definition pbkdf2Init (c : Z) : result nat :=
  if ((1 <=? c) && (c <=? maxSafeInteger))%Z then Ok (Z.to_nat c)
  else Err InvalidCost.

(** Modelled from the spec: [pbkdf2] of @noble/hashes/pbkdf2, which is not
    under src/ (the spec's KeyDerivation, PBKDF2 over HMAC of the given
    hash). *)
Definition pbkdf2 (hash : HashFn) (password : string) (salt : bytes)
    (c : Z) (dkLen : nat) : result bytes :=
  let* c := pbkdf2Init c in
  Ok (pack (Pbkdf2.derive hash (utf8ToBytes password) (octets salt) c dkLen)).

Fixpoint blocksAsync (hash : HashFn) (password salt : list Z) (c : nat)
    (tis : list nat) (clock : Clock) : Async (list Z * Clock) :=
  match tis with
  | [] => Now ([], clock)
  | ti :: rest =>
      let u := Pbkdf2.first hash password salt ti in
      await (asyncLoop (c - 1) clock (Pbkdf2.step hash password) (u, u))
        (fun s =>
           andThen (blocksAsync hash password salt c rest (snd s))
             (fun t => Now (snd (fst s) ++ fst t, snd t)))
  end.

(** Modelled from the spec: [pbkdf2Async] of @noble/hashes/pbkdf2: the
    same derivation with the iterations of every block inside
    [asyncLoop]. *)
Definition pbkdf2Async (clock : Clock) (hash : HashFn) (password : string)
    (salt : bytes) (c : Z) (dkLen : nat) : Async (result bytes) :=
  match pbkdf2Init c with
  | Err e => Now (Err e)
  | Ok c =>
      andThen
        (blocksAsync hash (utf8ToBytes password) (octets salt) c
           (seq 1 (Pbkdf2.blocks hash dkLen)) clock)
        (fun t => Now (Ok (pack (firstn dkLen (fst t)))))
  end.

Definition maxmem : Z := 1024 ^ 3 + 1024.

(** Modelled from the spec: what noble's scrypt, which is not under src/,
    takes as normal input (section 4.1): N a power of two above 1 and at
    most 2^32, p within its range, and the memory needed under [maxmem];
    anything else is refused. *)
Definition scryptInit (N r p : Z) : result (nat * nat * nat) :=
  let blockSize := (128 * r)%Z in
  if ((1 <? N) && (Z.land N (N - 1) =? 0) && (N <=? 2 ^ 32)
      && (0 <=? r) && (0 <=? p) && (p * blockSize <=? (2 ^ 32 - 1) * 32)
      && (blockSize * (N + p) <=? maxmem))%Z
  then Ok (Z.to_nat N, Z.to_nat r, Z.to_nat p)
  else Err InvalidCost.

(** Modelled from the spec: [scrypt] of @noble/hashes/scrypt, which is not
    under src/ (the spec's KeyDerivation, scrypt). *)
Definition scrypt (password : string) (salt : bytes) (N r p : Z)
    (dkLen : nat) : result bytes :=
  let* o := scryptInit N r p in
  let '(N, r, p) := o in
  Ok (pack (Scrypt.derive (utf8ToBytes password) (octets salt) N r p dkLen)).

Definition roMixAsync (N : nat) (B : Scrypt.Blocks) (clock : Clock)
    : Async (Scrypt.Blocks * Clock) :=
  await (asyncLoop (N - 1) clock Scrypt.fillStep [B])
    (fun s =>
       let '(V, X) := Scrypt.afterFill (fst s) in
       await (asyncLoop N (snd s) (Scrypt.stirStep N V) X)
         (fun t => Now t)).

Fixpoint lanesAsync (N : nat) (Bs : list (list Z)) (clock : Clock)
    : Async (list (list Z) * Clock) :=
  match Bs with
  | [] => Now ([], clock)
  | b :: rest =>
      andThen (roMixAsync N (Scrypt.words b) clock)
        (fun s =>
           andThen (lanesAsync N rest (snd s))
             (fun t => Now (Scrypt.unwords (fst s) :: fst t, snd t)))
  end.

(** Modelled from the spec: [scryptAsync] of @noble/hashes/scrypt: the
    same derivation with both loops of every lane inside [asyncLoop]. *)
Definition scryptAsync (clock : Clock) (password : string) (salt : bytes)
    (N r p : Z) (dkLen : nat) : Async (result bytes) :=
  match scryptInit N r p with
  | Err e => Now (Err e)
  | Ok (N, r, p) =>
      let pw := utf8ToBytes password in
      andThen (lanesAsync N (Scrypt.init pw (octets salt) r p) clock)
        (fun t => Now (Ok (pack (Scrypt.output pw (fst t) dkLen))))
  end.

End Noble.

(** The names Keystore.js imports the primitives under. *)
Definition ctr := Noble.ctr.
Definition pbkdf2_noble := Noble.pbkdf2.
Definition pbkdf2Async_noble := Noble.pbkdf2Async.
Definition scrypt_noble := Noble.scrypt.
Definition scryptAsync_noble := Noble.scryptAsync.

Module Hash.

(** Modelled from the spec: [Hash.keccak256] of ox's Hash.js, which is not
    under src/: on a byte array, the Keccak-256 digest as a byte array. *)
Definition keccak256 (value : bytes) : bytes := Noble.keccak_256 value.

End Hash.

Module Platform.

Definition group (b : bytes) : string := Hex.digits b.

(** Modelled from the spec: [crypto.randomUUID] of the host platform (the
    spec's freshly random [id]): a version 4 identifier over 16 random
    bytes, written 8-4-4-4-12. *)
Definition randomUUID (tape : Entropy) : string * Entropy :=
  let '(b, tape') := Bytes.random 16 tape in
  let fix_ (i : nat) (x : byte) : byte :=
    match i with
    | 6%nat => byte_of_Z (Z.lor (Z.land (Z_of_byte x) 15) 64)
    | 8%nat => byte_of_Z (Z.lor (Z.land (Z_of_byte x) 63) 128)
    | _ => x
    end in
  let b := map (fun p => fix_ (fst p) (snd p)) (combine (seq 0 16) b) in
  ((group (firstn 4 b) ++ "-" ++ group (firstn 2 (skipn 4 b)) ++ "-"
    ++ group (firstn 2 (skipn 6 b)) ++ "-" ++ group (firstn 2 (skipn 8 b))
    ++ "-" ++ group (skipn 10 b))%string, tape').

End Platform.

(** * Keystore.js *)

(** ** Types (Keystore.d.ts) *)

Inductive KdfParams : Type :=
| Pbkdf2Params (c dklen : Z) (prf salt : string)
| ScryptParams (dklen n p r : Z) (salt : string).

(** [BaseKey]. *)
Module Key.
Record t : Type := {
  iv : bytes;
  key : unit -> string;
  kdfparams : KdfParams;
  kdf : string
}.
End Key.
Definition Key : Type := Key.t.

Module CipherParams.
Record t : Type := { iv : string }.
End CipherParams.

Module Crypto.
Record t : Type := {
  cipher : string;
  ciphertext : string;
  cipherparams : CipherParams.t;
  kdf : string;
  kdfparams : KdfParams;
  mac : string
}.
End Crypto.

(** A record as it is read back at run time: [version] is whatever number
    the JSON holds and [cipher], [kdf] whatever text. *)
Module Keystore.
Record t : Type := {
  crypto : Crypto.t;
  id : string;
  version : Z
}.
End Keystore.
Definition Keystore : Type := Keystore.t.

(** [decrypt.Options]: the output format, ['Hex'] when absent. *)
Inductive As : Type := AsHex | AsBytes.

Module pbkdf2.
Record Options : Type := {
  iv : option BytesLike;
  iterations : option Z;
  password : string;
  salt : option BytesLike
}.
End pbkdf2.

Module scrypt.
Record Options : Type := {
  iv : option BytesLike;
  n : option Z;
  password : string;
  salt : option BytesLike
}.
End scrypt.

Module defineKey.
Record Value : Type := {
  iv : option BytesLike;
  key : unit -> string;
  kdfparams : KdfParams;
  kdf : string
}.
End defineKey.

(** ** Helpers for JavaScript idioms *)

(** Truthiness of an optional [Bytes | Hex]: a byte array always counts, a
    text counts unless it is empty. *)
Definition truthy (value : option BytesLike) : bool :=
  match value with
  | None => false
  | Some (OfHex EmptyString) => false
  | Some _ => true
  end.

(** [value ? Bytes.from(value) : Bytes.random(length)]. *)
Definition fromOrRandom (value : option BytesLike) (length : nat)
    (tape : Entropy) : result (bytes * Entropy) :=
  match value with
  | Some v =>
      if truthy value then let* b := Bytes.from v in Ok (b, tape)
      else Ok (Bytes.random length tape)
  | None => Ok (Bytes.random length tape)
  end.

(** [`0x${text}`]. *)
Definition prefixed (text : string) : BytesLike := OfHex ("0x" ++ text).

(** ** Functions *)

(** Keystore.js:244 *)
Definition defineKey (key : defineKey.Value) (tape : Entropy)
    : result (Key * Entropy) :=
  let* r := fromOrRandom (defineKey.iv key) 16 tape in
  Ok ({| Key.iv := fst r;
         Key.key := defineKey.key key;
         Key.kdfparams := defineKey.kdfparams key;
         Key.kdf := defineKey.kdf key |}, snd r).

(** Keystore.js:36 *)
Definition decrypt (keystore : Keystore) (key : Key) (as_ : option As)
    : result BytesLike :=
  let as_ := match as_ with Some a => a | None => AsHex end in
  let* key_ := Bytes.from (prefixed (Key.key key tt)) in
  let* encKey := Bytes.slice key_ 0 16 in
  let* macKey := Bytes.slice key_ 16 32 in
  let* ciphertext :=
    Bytes.from (prefixed (Crypto.ciphertext (Keystore.crypto keystore))) in
  let mac := Hash.keccak256 (Bytes.concat macKey ciphertext) in
  let* stored :=
    Bytes.from (prefixed (Crypto.mac (Keystore.crypto keystore))) in
  if negb (Bytes.isEqual mac stored) then Err CorruptKeystore
  else
    let* cipher := ctr encKey (Key.iv key) in
    let data := Noble.decrypt cipher ciphertext in
    match as_ with
    | AsHex => Ok (OfHex (Bytes.toHex data))
    | AsBytes => Ok (OfBytes data)
    end.

(** Keystore.js:96; [id] is the [id] option. *)
Definition encrypt (privateKey : BytesLike) (key : Key) (id : option string)
    (tape : Entropy) : result (Keystore * Entropy) :=
  let '(id, tape) :=
    match id with
    | Some i => (i, tape)
    | None => Platform.randomUUID tape
    end in
  let* key_ := Bytes.from (prefixed (Key.key key tt)) in
  let* value_ := Bytes.from privateKey in
  let* encKey := Bytes.slice key_ 0 16 in
  let* macKey := Bytes.slice key_ 16 32 in
  let* cipher := ctr encKey (Key.iv key) in
  let ciphertext := Noble.encrypt cipher value_ in
  let mac := Hash.keccak256 (Bytes.concat macKey ciphertext) in
  Ok ({| Keystore.crypto :=
           {| Crypto.cipher := "aes-128-ctr";
              Crypto.ciphertext := Hex.slice2 (Bytes.toHex ciphertext);
              Crypto.cipherparams :=
                {| CipherParams.iv := Hex.slice2 (Bytes.toHex (Key.iv key)) |};
              Crypto.kdf := Key.kdf key;
              Crypto.kdfparams := Key.kdfparams key;
              Crypto.mac := Hex.slice2 (Bytes.toHex mac) |};
         Keystore.id := id;
         Keystore.version := 3 |}, tape).

(** Keystore.js:130 *)
Definition pbkdf2 (options : pbkdf2.Options) (tape : Entropy)
    : result (Key * Entropy) :=
  let iv := pbkdf2.iv options in
  let iterations :=
    match pbkdf2.iterations options with Some i => i | None => 262144%Z end in
  let password := pbkdf2.password options in
  let* s := fromOrRandom (pbkdf2.salt options) 32 tape in
  let salt := fst s in
  let* dk := pbkdf2_noble sha256 password salt iterations 32 in
  let key := Hex.slice2 (Bytes.toHex dk) in
  defineKey
    {| defineKey.iv := iv;
       defineKey.key := fun _ => key;
       defineKey.kdfparams :=
         Pbkdf2Params iterations 32 "hmac-sha256"
           (Hex.slice2 (Bytes.toHex salt));
       defineKey.kdf := "pbkdf2" |}
    (snd s).

(** Keystore.js:159 *)
Definition pbkdf2Async (clock : Clock) (options : pbkdf2.Options)
    (tape : Entropy) : Async (result (Key * Entropy)) :=
  let iv := pbkdf2.iv options in
  let iterations :=
    match pbkdf2.iterations options with Some i => i | None => 262144%Z end in
  let password := pbkdf2.password options in
  match fromOrRandom (pbkdf2.salt options) 32 tape with
  | Err e => Now (Err e)
  | Ok s =>
      let salt := fst s in
      await (pbkdf2Async_noble clock sha256 password salt iterations 32)
        (fun settled =>
           Now (let* dk := settled in
                let key := Hex.slice2 (Bytes.toHex dk) in
                defineKey
                  {| defineKey.iv := iv;
                     defineKey.key := fun _ => key;
                     defineKey.kdfparams :=
                       Pbkdf2Params iterations 32 "hmac-sha256"
                         (Hex.slice2 (Bytes.toHex salt));
                     defineKey.kdf := "pbkdf2" |}
                  (snd s)))
  end.

(** Keystore.js:191 *)
Definition scrypt (options : scrypt.Options) (tape : Entropy)
    : result (Key * Entropy) :=
  let iv := scrypt.iv options in
  let n := match scrypt.n options with Some i => i | None => 262144%Z end in
  let password := scrypt.password options in
  let p := 8%Z in
  let r := 1%Z in
  let* s := fromOrRandom (scrypt.salt options) 32 tape in
  let salt := fst s in
  let* dk := scrypt_noble password salt n r p 32 in
  let key := Hex.slice2 (Bytes.toHex dk) in
  defineKey
    {| defineKey.iv := iv;
       defineKey.key := fun _ => key;
       defineKey.kdfparams :=
         ScryptParams 32 n p r (Hex.slice2 (Bytes.toHex salt));
       defineKey.kdf := "scrypt" |}
    (snd s).

(** Keystore.js:223 *)
Definition scryptAsync (clock : Clock) (options : scrypt.Options)
    (tape : Entropy) : Async (result (Key * Entropy)) :=
  let iv := scrypt.iv options in
  let n := match scrypt.n options with Some i => i | None => 262144%Z end in
  let password := scrypt.password options in
  let p := 8%Z in
  let r := 1%Z in
  match fromOrRandom (scrypt.salt options) 32 tape with
  | Err e => Now (Err e)
  | Ok s =>
      let salt := fst s in
      await (scryptAsync_noble clock password salt n r p 32)
        (fun settled =>
           Now (let* dk := settled in
                let key := Hex.slice2 (Bytes.toHex dk) in
                defineKey
                  {| defineKey.iv := iv;
                     defineKey.key := fun _ => key;
                     defineKey.kdfparams :=
                       ScryptParams 32 n p r (Hex.slice2 (Bytes.toHex salt));
                     defineKey.kdf := "scrypt" |}
                  (snd s)))
  end.

(** * Vocabulary of the statements *)

(** What [decrypt] hands back for the decrypted [data] under option [as]. *)
Definition rendered (as_ : option As) (data : bytes) : BytesLike :=
  match as_ with
  | Some AsBytes => OfBytes data
  | _ => OfHex (Bytes.toHex data)
  end.

(** The bytes behind a hex field of a record or behind [key.key()]. *)
Definition decoded (text : string) : result bytes := Bytes.from (prefixed text).

(** A DerivedKey as the data model has it: a 16-byte iv and 32 bytes of
    material. *)
Definition wellFormedKey (key : Key) : bool :=
  (List.length (Key.iv key) =? 16)%nat
  && match decoded (Key.key key tt) with
     | Ok material => (List.length material =? 32)%nat
     | Err _ => false
     end.

(** ** The fixed-input case of the specification (section 8, item 6) *)

Definition zeros (n : nat) : bytes := repeat x00 n.

Definition tape0 : Entropy := fun i => byte_of_Z (Z.of_nat (7 * i + 1)).

Definition options0 : pbkdf2.Options :=
  {| pbkdf2.iv := Some (OfBytes (zeros 16));
     pbkdf2.iterations := Some 2%Z;
     pbkdf2.password := "testpassword";
     pbkdf2.salt := Some (OfBytes (zeros 32)) |}.

Definition key0 : Key :=
  {| Key.iv := zeros 16;
     Key.key := fun _ =>
       "d0eeaa7f5099ab896fe30086b8b07af59ae8b91b9b17ae23c8d5e7f28e97878b"%string;
     Key.kdfparams :=
       Pbkdf2Params 2 32 "hmac-sha256"
         "0000000000000000000000000000000000000000000000000000000000000000";
     Key.kdf := "pbkdf2" |}.

Definition material0 : bytes :=
  [xd0; xee; xaa; x7f; x50; x99; xab; x89; x6f; xe3; x00; x86; xb8; xb0;
   x7a; xf5; x9a; xe8; xb9; x1b; x9b; x17; xae; x23; xc8; xd5; xe7; xf2;
   x8e; x97; x87; x8b].

Definition privateKey0 : bytes :=
  [x01; x02; x03; x04; x05; x06; x07; x08; x09; x0a; x0b; x0c; x0d; x0e; x0f;
   x10; x11; x12; x13; x14; x15; x16; x17; x18; x19; x1a; x1b; x1c; x1d; x1e;
   x1f].

Definition crypto0 : Crypto.t :=
  {| Crypto.cipher := "aes-128-ctr";
     Crypto.ciphertext :=
       "883d416f00104a06e765bbbff2d9a0d38d932f814af5fff0a0874a13ac900b";
     Crypto.cipherparams :=
       {| CipherParams.iv := "00000000000000000000000000000000" |};
     Crypto.kdf := "pbkdf2";
     Crypto.kdfparams := Key.kdfparams key0;
     Crypto.mac :=
       "28c863f9bf79508d5e4b58481b4712344e0186a08076e019e69e29640088fd58" |}.

Definition keystore0 : Keystore :=
  {| Keystore.crypto := crypto0; Keystore.id := "k0"; Keystore.version := 3 |}.

(** Record updates used to vary one field of a keystore. *)
Definition withCrypto (f : Crypto.t -> Crypto.t) (keystore : Keystore)
    : Keystore :=
  {| Keystore.crypto := f (Keystore.crypto keystore);
     Keystore.id := Keystore.id keystore;
     Keystore.version := Keystore.version keystore |}.

Definition setMac (mac : string) (c : Crypto.t) : Crypto.t :=
  {| Crypto.cipher := Crypto.cipher c;
     Crypto.ciphertext := Crypto.ciphertext c;
     Crypto.cipherparams := Crypto.cipherparams c;
     Crypto.kdf := Crypto.kdf c;
     Crypto.kdfparams := Crypto.kdfparams c;
     Crypto.mac := mac |}.

Definition setCiphertext (ciphertext : string) (c : Crypto.t) : Crypto.t :=
  {| Crypto.cipher := Crypto.cipher c;
     Crypto.ciphertext := ciphertext;
     Crypto.cipherparams := Crypto.cipherparams c;
     Crypto.kdf := Crypto.kdf c;
     Crypto.kdfparams := Crypto.kdfparams c;
     Crypto.mac := Crypto.mac c |}.

Definition setStoredIv (iv : string) (c : Crypto.t) : Crypto.t :=
  {| Crypto.cipher := Crypto.cipher c;
     Crypto.ciphertext := Crypto.ciphertext c;
     Crypto.cipherparams := {| CipherParams.iv := iv |};
     Crypto.kdf := Crypto.kdf c;
     Crypto.kdfparams := Crypto.kdfparams c;
     Crypto.mac := Crypto.mac c |}.

Definition withIv (iv : bytes) (key : Key) : Key :=
  {| Key.iv := iv;
     Key.key := Key.key key;
     Key.kdfparams := Key.kdfparams key;
     Key.kdf := Key.kdf key |}.

(** [fromOrRandom] succeeds on this optional value. *)
Definition usable (value : option BytesLike) : bool :=
  match value with
  | Some v => if truthy value then is_ok (Bytes.from v) else true
  | None => true
  end.

Definition orDefault (value : option Z) : Z :=
  match value with Some v => v | None => 262144%Z end.

(** Options that leave everything to the defaults. *)
Definition defaults (password : string) : pbkdf2.Options :=
  {| pbkdf2.iv := None; pbkdf2.iterations := None;
     pbkdf2.password := password; pbkdf2.salt := None |}.

Definition scryptDefaults (password : string) : scrypt.Options :=
  {| scrypt.iv := None; scrypt.n := None;
     scrypt.password := password; scrypt.salt := None |}.

(** A small scrypt case: N = 2, zero salt, zero iv. *)
Definition scryptOptions0 : scrypt.Options :=
  {| scrypt.iv := Some (OfBytes (zeros 16));
     scrypt.n := Some 2%Z;
     scrypt.password := "testpassword";
     scrypt.salt := Some (OfBytes (zeros 32)) |}.

Definition scryptKey0 : Key :=
  {| Key.iv := zeros 16;
     Key.key := fun _ =>
       "61a8eecdee9ad35b8c670d9281d112291185eb7a3acd41b08432119dd616e550"%string;
     Key.kdfparams :=
       ScryptParams 32 2 8 1
         "0000000000000000000000000000000000000000000000000000000000000000";
     Key.kdf := "scrypt" |}.

(** ** Tampering *)

(** The byte whose only set bit is bit [i] (0 is the least significant). *)
Definition mask (i : nat) : byte :=
  Byte.of_bits
    (Nat.eqb i 0, (Nat.eqb i 1, (Nat.eqb i 2, (Nat.eqb i 3,
      (Nat.eqb i 4, (Nat.eqb i 5, (Nat.eqb i 6, Nat.eqb i 7))))))).

(** [data] with bit [i mod 8] of byte [i / 8] flipped. *)
Fixpoint flipBit (i : nat) (data : bytes) : bytes :=
  match data with
  | [] => []
  | b :: rest =>
      if (i <? 8)%nat then Noble.xor_byte b (mask i) :: rest
      else b :: flipBit (i - 8) rest
  end.

(** ** The validation the specification asks of a reader *)

(** Hex text that stands for exactly [n] bytes. *)
Definition hexOfLength (n : nat) (text : string) : bool :=
  match decoded text with
  | Ok b => (String.length text =? 2 * n)%nat && (List.length b =? n)%nat
  | Err _ => false
  end.

(** Follows the specification (sections 3, 6 and 7), not the code: version
    3, cipher aes-128-ctr, kdf pbkdf2 or scrypt, a hex ciphertext, a 16-byte
    hex iv and a 32-byte hex mac.  Keystore.js has no counterpart. *)
Definition structurallyValid (keystore : Keystore) : bool :=
  let c := Keystore.crypto keystore in
  (Keystore.version keystore =? 3)%Z
  && String.eqb (Crypto.cipher c) "aes-128-ctr"
  && (String.eqb (Crypto.kdf c) "pbkdf2" || String.eqb (Crypto.kdf c) "scrypt")
  && is_ok (decoded (Crypto.ciphertext c))
  && hexOfLength 16 (CipherParams.iv (Crypto.cipherparams c))
  && hexOfLength 32 (Crypto.mac c).

(** A record that breaks every one of those rules but the two hex fields
    [decrypt] reads. *)
Definition malformed0 : Keystore :=
  {| Keystore.crypto :=
       {| Crypto.cipher := "aes-256-cbc";
          Crypto.ciphertext := Crypto.ciphertext crypto0;
          Crypto.cipherparams := {| CipherParams.iv := "not hex" |};
          Crypto.kdf := "argon2";
          Crypto.kdfparams := Key.kdfparams key0;
          Crypto.mac := Crypto.mac crypto0 |};
     Keystore.id := "";
     Keystore.version := 4 |}.

(** A derivation call with an iv of three bytes. *)
Definition shortIvOptions : pbkdf2.Options :=
  {| pbkdf2.iv := Some (OfBytes [x01; x02; x03]);
     pbkdf2.iterations := Some 2%Z;
     pbkdf2.password := "testpassword";
     pbkdf2.salt := Some (OfBytes (zeros 32)) |}.

(** Octets as hex text, for the published answers. *)
Definition shown (l : list Z) : string := Hex.digits (Noble.pack l).

(** * Vocabulary of the further properties *)

(** [key] with [key()] answering [text]. *)
Definition withKeyText (text : string) (key : Key) : Key :=
  {| Key.iv := Key.iv key;
     Key.key := fun _ => text;
     Key.kdfparams := Key.kdfparams key;
     Key.kdf := Key.kdf key |}.

(** The key a PBKDF2 derivation builds from its parts. *)
Definition pbkdf2Key (iv salt material : bytes) (iterations : Z) : Key :=
  {| Key.iv := iv;
     Key.key := fun _ => Hex.digits material;
     Key.kdfparams :=
       Pbkdf2Params iterations 32 "hmac-sha256" (Hex.digits salt);
     Key.kdf := "pbkdf2" |}.

(** The key a scrypt derivation builds from its parts. *)
Definition scryptKey (iv salt material : bytes) (n : Z) : Key :=
  {| Key.iv := iv;
     Key.key := fun _ => Hex.digits material;
     Key.kdfparams := ScryptParams 32 n 8 1 (Hex.digits salt);
     Key.kdf := "scrypt" |}.

(** What the holder of the password reads off a record to derive its key
    again: cost and salt from [kdfparams], the iv from [cipherparams]. *)
Definition rederivePbkdf2 (password : string) (c : Crypto.t)
    : option pbkdf2.Options :=
  match Crypto.kdfparams c with
  | Pbkdf2Params iterations _ _ salt =>
      Some {| pbkdf2.iv :=
                Some (prefixed (CipherParams.iv (Crypto.cipherparams c)));
              pbkdf2.iterations := Some iterations;
              pbkdf2.password := password;
              pbkdf2.salt := Some (prefixed salt) |}
  | ScryptParams _ _ _ _ _ => None
  end.

Definition rederiveScrypt (password : string) (c : Crypto.t)
    : option scrypt.Options :=
  match Crypto.kdfparams c with
  | ScryptParams _ n _ _ salt =>
      Some {| scrypt.iv :=
                Some (prefixed (CipherParams.iv (Crypto.cipherparams c)));
              scrypt.n := Some n;
              scrypt.password := password;
              scrypt.salt := Some (prefixed salt) |}
  | Pbkdf2Params _ _ _ _ => None
  end.

(** The next [length] bytes of the tape from position [start] on. *)
Definition taken (tape : Entropy) (start length : nat) : bytes :=
  map tape (seq start length).

(** A private key given as hex text of odd length. *)
Definition oddHexKey : BytesLike := OfHex "0x123".

(** Options that leave salt and iv to the random source, at a small cost. *)
Definition freshOptions : pbkdf2.Options :=
  {| pbkdf2.iv := None; pbkdf2.iterations := Some 2%Z;
     pbkdf2.password := "testpassword"; pbkdf2.salt := None |}.

Definition freshScryptOptions : scrypt.Options :=
  {| scrypt.iv := None; scrypt.n := Some 2%Z;
     scrypt.password := "testpassword"; scrypt.salt := None |}.

(** * Properties of the byte codec *)

Unset Implicit Arguments.

Lemma Z_of_byte_range (b : byte) : (0 <= Z_of_byte b < 256)%Z.
Proof.
  unfold Z_of_byte. pose proof (Byte.to_N_bounded b). lia.
Qed.

Lemma byte_of_Z_of_byte (b : byte) : byte_of_Z (Z_of_byte b) = b.
Proof.
  unfold byte_of_Z. rewrite Z.mod_small by apply Z_of_byte_range.
  unfold Z_of_byte. rewrite N2Z.id, Byte.of_to_N. reflexivity.
Qed.

Lemma fromPairs_hexes (b : byte) (s : string) :
  Bytes.fromPairs (Hex.hexes b ++ s) =
  (let* tail := Bytes.fromPairs s in Ok (b :: tail)).
Proof.
  destruct b; reflexivity.
Qed.

Lemma fromPairs_digits (value : bytes) :
  Bytes.fromPairs (Hex.digits value) = Ok value.
Proof.
  induction value as [|b rest IH]; [reflexivity|].
  cbn [Hex.digits]. rewrite fromPairs_hexes, IH. reflexivity.
Qed.

Lemma length_digits (value : bytes) :
  String.length (Hex.digits value) = 2 * List.length value.
Proof.
  induction value as [|b rest IH]; [reflexivity|].
  cbn [Hex.digits List.length]. unfold Hex.hexes. cbn [append String.length].
  rewrite IH. lia.
Qed.

Lemma odd_length_digits (value : bytes) :
  Nat.odd (String.length (Hex.digits value)) = false.
Proof.
  rewrite length_digits, Nat.odd_mul. reflexivity.
Qed.

Lemma slice2_toHex (value : bytes) :
  Hex.slice2 (Bytes.toHex value) = Hex.digits value.
Proof. reflexivity. Qed.

(** Reading back, with the prefix put on again, what [toHex (..).slice(2)]
    wrote gives the bytes that were written. *)
Lemma from_prefixed_digits (value : bytes) :
  Bytes.from (prefixed (Hex.digits value)) = Ok value.
Proof.
  unfold prefixed, Bytes.from, Bytes.fromHex. cbn [append Hex.slice2].
  rewrite odd_length_digits. apply fromPairs_digits.
Qed.

Lemma is_lower_hex_app (s t : string) :
  Hex.is_lower_hex (s ++ t) = Hex.is_lower_hex s && Hex.is_lower_hex t.
Proof.
  induction s as [|c s IH]; [reflexivity|].
  cbn [append Hex.is_lower_hex]. rewrite IH, andb_assoc. reflexivity.
Qed.

Lemma is_lower_hex_digits (value : bytes) :
  Hex.is_lower_hex (Hex.digits value) = true.
Proof.
  induction value as [|b rest IH]; [reflexivity|].
  cbn [Hex.digits]. rewrite is_lower_hex_app, IH, andb_true_r.
  destruct b; reflexivity.
Qed.

Lemma lower_hex_no_prefix (s : string) :
  Hex.is_lower_hex s = true -> prefix "0x" s = false.
Proof.
  destruct s as [|a [|b s]]; cbn [prefix]; intros H.
  - reflexivity.
  - destruct (ascii_dec "0" a); reflexivity.
  - destruct (ascii_dec "0" a); [|reflexivity].
    destruct (ascii_dec "x" b) as [<-|]; [|reflexivity].
    cbn [Hex.is_lower_hex] in H.
    apply andb_true_iff in H as [_ H]. apply andb_true_iff in H as [H _].
    discriminate H.
Qed.

Lemma isEqual_eq (a b : bytes) : Bytes.isEqual a b = true <-> a = b.
Proof.
  revert b. induction a as [|x a IH]; intros [|y b]; cbn [Bytes.isEqual];
    try (split; [discriminate|discriminate]); [tauto|].
  rewrite andb_true_iff, IH. split.
  - intros [H ->]. apply Byte.byte_dec_bl in H. now subst.
  - intros H. injection H as -> ->. split; [now apply Byte.byte_dec_lb|reflexivity].
Qed.

Lemma isEqual_refl (a : bytes) : Bytes.isEqual a a = true.
Proof. now apply isEqual_eq. Qed.

Lemma isEqual_neq (a b : bytes) : a <> b -> Bytes.isEqual a b = false.
Proof.
  intros H. destruct (Bytes.isEqual a b) eqn:E; [|reflexivity].
  apply isEqual_eq in E. contradiction.
Qed.

Lemma slice_0 (value : bytes) (end_ : nat) :
  Bytes.slice value 0 end_ = Ok (firstn end_ value).
Proof.
  unfold Bytes.slice. cbn [Nat.ltb Nat.leb andb skipn]. now rewrite Nat.sub_0_r.
Qed.

Lemma slice_ok (value : bytes) (start end_ : nat) :
  start < Bytes.size value ->
  Bytes.slice value start end_ = Ok (firstn (end_ - start) (skipn start value)).
Proof.
  intros H. unfold Bytes.slice.
  replace (Bytes.size value - 1 <? start)%nat with false; [now rewrite andb_false_r|].
  symmetry. apply Nat.ltb_ge. lia.
Qed.

Lemma slice_inv (value out : bytes) (start end_ : nat) :
  Bytes.slice value start end_ = Ok out ->
  out = firstn (end_ - start) (skipn start value) /\
  (0 < start -> start < Bytes.size value).
Proof.
  unfold Bytes.slice. intros H.
  destruct (0 <? start)%nat eqn:E0; cbn [andb] in H.
  - destruct (Bytes.size value - 1 <? start)%nat eqn:E1; [discriminate|].
    apply Nat.ltb_ge in E1. apply Nat.ltb_lt in E0.
    injection H as <-. split; [reflexivity|lia].
  - apply Nat.ltb_ge in E0. injection H as <-. split; [reflexivity|lia].
Qed.

(** * Properties of the primitives *)

Section Lengths.

Lemma length_flat_map_const {A B : Type} (f : A -> list B) (n : nat)
    (l : list A) :
  (forall a, List.length (f a) = n) ->
  List.length (flat_map f l) = n * List.length l.
Proof.
  intros Hf. induction l as [|a l IH]; cbn [flat_map List.length].
  - lia.
  - rewrite length_app, Hf, IH. lia.
Qed.

Lemma length_xors (a b : list Z) :
  List.length (Word.xors a b) = Nat.min (List.length a) (List.length b).
Proof.
  unfold Word.xors. now rewrite length_map, length_combine.
Qed.

Lemma length_pack (l : list Z) : List.length (Noble.pack l) = List.length l.
Proof. apply length_map. Qed.

(** *** SHA-256 *)

Lemma length_sha_round (s : list Z) (kw : Z * Z) :
  List.length (Sha256.round s kw) = List.length s.
Proof.
  unfold Sha256.round.
  do 9 (destruct s as [|? s]; try reflexivity).
Qed.

Lemma length_sha_rounds (l : list (Z * Z)) (s : list Z) :
  List.length (fold_left Sha256.round l s) = List.length s.
Proof.
  revert s. induction l as [|kw l IH]; intros s; cbn [fold_left].
  - reflexivity.
  - now rewrite IH, length_sha_round.
Qed.

Lemma length_compress (H block : list Z) :
  List.length (Sha256.compress H block) = List.length H.
Proof.
  unfold Sha256.compress.
  rewrite length_map, length_combine, length_sha_rounds. apply Nat.min_id.
Qed.

Lemma length_compress_all (blocks : list (list Z)) (H : list Z) :
  List.length (fold_left Sha256.compress blocks H) = List.length H.
Proof.
  revert H. induction blocks as [|b blocks IH]; intros H; cbn [fold_left].
  - reflexivity.
  - now rewrite IH, length_compress.
Qed.

Lemma length_sha256 (msg : list Z) : List.length (digest sha256 msg) = 32.
Proof.
  cbn [digest sha256]. unfold Sha256.hash.
  rewrite length_flat_map_const with (n := 4) by reflexivity.
  now rewrite length_compress_all.
Qed.

Lemma length_hmac_sha256 (key msg : list Z) :
  List.length (Hmac.hmac sha256 key msg) = 32.
Proof. unfold Hmac.hmac. apply length_sha256. Qed.

(** *** PBKDF2 *)

Lemma length_pbkdf2_loop (password : list Z) (n : nat) (s : list Z * list Z) :
  List.length (snd s) = 32 ->
  List.length (snd (Word.loop n (Pbkdf2.step sha256 password) s)) = 32.
Proof.
  revert s. induction n as [|n IH]; intros s Hs; cbn [Word.loop].
  - exact Hs.
  - apply IH. unfold Pbkdf2.step. cbn [snd].
    rewrite length_xors, Hs, length_hmac_sha256. reflexivity.
Qed.

Lemma length_pbkdf2_block (password salt : list Z) (c ti : nat) :
  List.length (Pbkdf2.block sha256 password salt c ti) = 32.
Proof.
  unfold Pbkdf2.block. apply length_pbkdf2_loop. cbn [snd].
  apply length_hmac_sha256.
Qed.

Lemma length_pbkdf2_derive (password salt : list Z) (c dkLen : nat) :
  List.length (Pbkdf2.derive sha256 password salt c dkLen) = dkLen.
Proof.
  unfold Pbkdf2.derive.
  rewrite length_firstn,
    length_flat_map_const with (n := 32) by apply length_pbkdf2_block.
  rewrite length_seq. unfold Pbkdf2.blocks. cbn [outputLen sha256].
  pose proof (Nat.div_mod_eq (dkLen + (32 - 1)) 32) as E.
  pose proof (Nat.mod_upper_bound (dkLen + (32 - 1)) 32) as U.
  lia.
Qed.

(** *** Keccak *)

Lemma length_iota (rc : Z) (A : list Z) :
  List.length (Keccak.iota rc A) = List.length A.
Proof. destruct A; reflexivity. Qed.

Lemma length_keccak_round (A : list Z) (rc : Z) :
  List.length (Keccak.round A rc) = 25.
Proof.
  unfold Keccak.round. rewrite length_iota. unfold Keccak.chi, Keccak.lanes.
  now rewrite length_map, length_seq.
Qed.

Lemma length_keccak_rounds (rcs : list Z) (A : list Z) :
  List.length A = 25 -> List.length (fold_left Keccak.round rcs A) = 25.
Proof.
  revert A. induction rcs as [|rc rcs IH]; intros A HA; cbn [fold_left].
  - exact HA.
  - apply IH, length_keccak_round.
Qed.

Lemma length_absorb (A block : list Z) :
  List.length (Keccak.absorb A block) = 25.
Proof.
  unfold Keccak.absorb, Keccak.keccakf. apply length_keccak_rounds.
  unfold Keccak.lanes. now rewrite length_map, length_seq.
Qed.

Lemma length_absorb_all (blocks : list (list Z)) (A : list Z) :
  List.length A = 25 -> List.length (fold_left Keccak.absorb blocks A) = 25.
Proof.
  revert A. induction blocks as [|b blocks IH]; intros A HA; cbn [fold_left].
  - exact HA.
  - apply IH, length_absorb.
Qed.

Lemma length_sponge (suffix : Z) (outLen : nat) (msg : list Z) :
  outLen <= 200 -> List.length (Keccak.sponge suffix outLen msg) = outLen.
Proof.
  intros H. unfold Keccak.sponge.
  rewrite length_firstn, length_flat_map_const with (n := 8) by reflexivity.
  rewrite length_absorb_all by apply repeat_length. lia.
Qed.

(** *** AES in counter mode *)

Lemma length_encryptBlock (xk : list (list Z)) (block : list Z) :
  List.length (Aes.encryptBlock xk block) = 16.
Proof.
  unfold Aes.encryptBlock, Aes.addRoundKey, Aes.cells.
  now rewrite length_map, length_seq.
Qed.

Lemma length_keystream (xk : list (list Z)) (blocks : nat) (counter : list Z) :
  List.length (Aes.keystream xk counter blocks) = 16 * blocks.
Proof.
  revert counter. induction blocks as [|n IH]; intros counter;
    cbn [Aes.keystream].
  - reflexivity.
  - rewrite length_app, length_encryptBlock, IH. lia.
Qed.

End Lengths.

(** ** Published answers *)

(** FIPS 180-2, the one-block message. *)
Example sha256_abc :
  shown (digest sha256 (Noble.utf8ToBytes "abc")) =
  "ba7816bf8f01cfea414140de5dae2223b00361a396177a9cb410ff61f20015ad"%string.
Proof. vm_compute. reflexivity. Qed.

(** The Keccak-256 of the empty message. *)
Example keccak_256_empty :
  Hex.digits (Noble.keccak_256 []) =
  "c5d2460186f7233c927e7db2dcc703c0e500b653ca82273b7bfad8045d85a470"%string.
Proof. vm_compute. reflexivity. Qed.

(** FIPS 197, appendix C.1. *)
Example aes128_fips197 :
  shown (Aes.encryptBlock (Aes.expandKey (map Z.of_nat (seq 0 16)))
           (map (fun i => Z.of_nat (17 * i)) (seq 0 16))) =
  "69c4e0d86a7b0430d8cdb78070b4c55a"%string.
Proof. vm_compute. reflexivity. Qed.

(** The counter wraps from 2^128 - 1 to 0. *)
Example ctr_counter_wraps :
  Aes.increment (repeat 255%Z 16) = repeat 0%Z 16 /\
  Aes.increment (repeat 0%Z 15 ++ [255%Z]) = repeat 0%Z 14 ++ [1%Z; 0%Z].
Proof. vm_compute. split; reflexivity. Qed.

(** RFC 7914, section 11. *)
Example pbkdf2_rfc7914 :
  Hex.digits
    (match pbkdf2_noble sha256 "passwd" (Noble.pack (Noble.utf8ToBytes "salt"))
             1 64 with
     | Ok dk => dk
     | Err _ => []
     end) =
  ("55ac046e56e3089fec1691c22544b605f94185216dde0465e68b9d57c20dacbc" ++
   "49ca9cccf179b645991664b39d77ef317c71b845b1e30bd509112041d3a19783")%string.
Proof. vm_compute. reflexivity. Qed.

(** RFC 7914, section 12, first case. *)
Example scrypt_rfc7914 :
  Hex.digits
    (match scrypt_noble "" [] 16 1 1 64 with Ok dk => dk | Err _ => [] end) =
  ("77d6576238657b203b19ca42c18a0497f16b4844e3074ae8dfdffa3fede21442" ++
   "fcd0069ded0948f8326a753a0fc81f17e8d3e0fb2e0d3628cf35e20c38d18906")%string.
Proof. vm_compute. reflexivity. Qed.

(** The Keccak-256 digest has 32 bytes. *)
Lemma length_keccak_256 (data : bytes) :
  List.length (Noble.keccak_256 data) = 32.
Proof.
  unfold Noble.keccak_256, Keccak.keccak_256.
  rewrite length_pack. apply length_sponge. lia.
Qed.

Lemma length_keccak256 (value : bytes) :
  List.length (Hash.keccak256 value) = 32.
Proof. apply length_keccak_256. Qed.

Lemma xor_byte_involutive (a b : byte) :
  Noble.xor_byte (Noble.xor_byte a b) b = a.
Proof.
  unfold Noble.xor_byte. rewrite Byte.to_bits_of_bits.
  rewrite <- (Byte.of_bits_to_bits a) at 2.
  destruct (Byte.to_bits a) as (a0 & a1 & a2 & a3 & a4 & a5 & a6 & a7).
  destruct (Byte.to_bits b) as (b0 & b1 & b2 & b3 & b4 & b5 & b6 & b7).
  cbn [Noble.xor_bits].
  now rewrite !xorb_assoc, !xorb_nilpotent, !xorb_false_r.
Qed.

Lemma length_xor_bytes (data stream : bytes) :
  List.length data <= List.length stream ->
  List.length (Noble.xor_bytes data stream) = List.length data.
Proof.
  intros H. unfold Noble.xor_bytes. rewrite length_map, length_combine. lia.
Qed.

Lemma xor_bytes_involutive (data stream : bytes) :
  List.length data <= List.length stream ->
  Noble.xor_bytes (Noble.xor_bytes data stream) stream = data.
Proof.
  revert stream. induction data as [|x data IH]; intros [|k stream] H;
    cbn [List.length] in H; try lia; try reflexivity.
  unfold Noble.xor_bytes in *. cbn [combine map fst snd].
  rewrite xor_byte_involutive. f_equal. apply IH. lia.
Qed.

Lemma length_stream (key nonce : bytes) (n : nat) :
  n <= List.length
         (Noble.pack (Aes.keystream (Aes.expandKey (Noble.octets key))
                        (Noble.octets nonce) ((n + 15) / 16))).
Proof.
  rewrite length_pack, length_keystream.
  pose proof (Nat.div_mod_eq (n + 15) 16) as E.
  pose proof (Nat.mod_upper_bound (n + 15) 16) as U. lia.
Qed.

(** Counter mode preserves the length ... *)
Lemma length_processCtr (key nonce buf : bytes) :
  List.length (Noble.processCtr key nonce buf) = List.length buf.
Proof.
  unfold Noble.processCtr. apply length_xor_bytes, length_stream.
Qed.

(** ... and is its own inverse under the same key and nonce. *)
Lemma processCtr_involutive (key nonce buf : bytes) :
  Noble.processCtr key nonce (Noble.processCtr key nonce buf) = buf.
Proof.
  unfold Noble.processCtr at 1. rewrite length_processCtr.
  unfold Noble.processCtr. apply xor_bytes_involutive, length_stream.
Qed.

Lemma ctr_inv (key nonce : bytes) (cipher : Noble.Cipher) :
  ctr key nonce = Ok cipher ->
  List.length key = 16 /\ List.length nonce = 16 /\
  Noble.encrypt cipher = Noble.processCtr key nonce /\
  Noble.decrypt cipher = Noble.processCtr key nonce.
Proof.
  unfold ctr, Noble.ctr.
  destruct (List.length key =? 16) eqn:Ek; [|discriminate].
  destruct (List.length nonce =? 16) eqn:En; [|discriminate].
  cbn [andb]. intros H. injection H as <-.
  apply Nat.eqb_eq in Ek, En. auto.
Qed.

Lemma ctr_ok (key nonce : bytes) :
  List.length key = 16 -> List.length nonce = 16 ->
  ctr key nonce = Ok {| Noble.encrypt := Noble.processCtr key nonce;
                        Noble.decrypt := Noble.processCtr key nonce |}.
Proof.
  intros Hk Hn. unfold ctr, Noble.ctr. now rewrite Hk, Hn.
Qed.

Lemma ctr_err (key nonce : bytes) (e : error) :
  ctr key nonce = Err e -> e = InputLength.
Proof.
  unfold ctr, Noble.ctr.
  destruct (_ && _); [discriminate|]. intros H. now injection H as <-.
Qed.

Lemma ctr_bad_nonce (key nonce : bytes) :
  List.length nonce <> 16 -> ctr key nonce = Err InputLength.
Proof.
  intros H. unfold ctr, Noble.ctr. apply Nat.eqb_neq in H.
  now rewrite H, andb_false_r.
Qed.

Lemma length_pbkdf2_noble (password : string) (salt : bytes) (c : Z)
    (dkLen : nat) (dk : bytes) :
  pbkdf2_noble sha256 password salt c dkLen = Ok dk -> List.length dk = dkLen.
Proof.
  unfold pbkdf2_noble, Noble.pbkdf2.
  destruct (Noble.pbkdf2Init c) as [n|e]; cbn [bind]; [|discriminate].
  intros H. injection H as <-.
  now rewrite length_pack, length_pbkdf2_derive.
Qed.

Lemma pbkdf2_noble_ok (password : string) (salt : bytes) (c : Z) (dkLen : nat) :
  (1 <= c <= Noble.maxSafeInteger)%Z ->
  exists dk, pbkdf2_noble sha256 password salt c dkLen = Ok dk.
Proof.
  intros [H1 H2]. unfold pbkdf2_noble, Noble.pbkdf2, Noble.pbkdf2Init.
  apply Z.leb_le in H1, H2. rewrite H1, H2. cbn [andb bind]. eauto.
Qed.

Lemma length_scrypt_noble (password : string) (salt : bytes) (N r p : Z)
    (dkLen : nat) (dk : bytes) :
  scrypt_noble password salt N r p dkLen = Ok dk -> List.length dk = dkLen.
Proof.
  unfold scrypt_noble, Noble.scrypt.
  destruct (Noble.scryptInit N r p) as [[[N' r'] p']|e]; cbn [bind];
    [|discriminate].
  intros H. injection H as <-.
  unfold Scrypt.derive, Scrypt.output.
  now rewrite length_pack, length_pbkdf2_derive.
Qed.

Lemma scrypt_noble_ok (password : string) (salt : bytes) (N r p : Z)
    (dkLen : nat) :
  is_ok (Noble.scryptInit N r p) = true ->
  exists dk, scrypt_noble password salt N r p dkLen = Ok dk.
Proof.
  unfold scrypt_noble, Noble.scrypt.
  destruct (Noble.scryptInit N r p) as [[[N' r'] p']|e]; [|discriminate].
  intros _. cbn [bind]. eauto.
Qed.

(** *** Promises *)

Lemma run_andThen {A B : Type} (p : Async A) (k : A -> Async B) :
  run (andThen p k) = run (k (run p)).
Proof.
  induction p as [a|next IH]; cbn [andThen run]; [reflexivity|exact IH].
Qed.

Lemma run_await {A B : Type} (p : Async A) (k : A -> Async B) :
  run (await p k) = run (k (run p)).
Proof. unfold await. cbn [run]. apply run_andThen. Qed.

(** However the clock answers, [asyncLoop] ends in the state the plain loop
    ends in. *)
Lemma run_asyncLoop {S : Type} (iters : nat) (clock : Clock) (cb : S -> S)
    (s : S) :
  fst (run (asyncLoop iters clock cb s)) = Word.loop iters cb s.
Proof.
  revert clock s. induction iters as [|n IH]; intros clock s;
    cbn [asyncLoop Word.loop].
  - reflexivity.
  - destruct (clock 0); cbn [run]; apply IH.
Qed.

Lemma run_blocksAsync (hash : HashFn) (password salt : list Z) (c : nat)
    (tis : list nat) (clock : Clock) :
  fst (run (Noble.blocksAsync hash password salt c tis clock)) =
  flat_map (Pbkdf2.block hash password salt c) tis.
Proof.
  revert clock. induction tis as [|ti rest IH]; intros clock;
    cbn [Noble.blocksAsync flat_map].
  - reflexivity.
  - rewrite run_await, run_andThen. cbn [run fst snd].
    rewrite IH. unfold Pbkdf2.block. now rewrite run_asyncLoop.
Qed.

Lemma run_pbkdf2Async_noble (clock : Clock) (hash : HashFn)
    (password : string) (salt : bytes) (c : Z) (dkLen : nat) :
  run (pbkdf2Async_noble clock hash password salt c dkLen) =
  pbkdf2_noble hash password salt c dkLen.
Proof.
  unfold pbkdf2Async_noble, pbkdf2_noble, Noble.pbkdf2Async, Noble.pbkdf2.
  destruct (Noble.pbkdf2Init c) as [n|e]; cbn [bind run]; [|reflexivity].
  rewrite run_andThen. cbn [run]. rewrite run_blocksAsync. reflexivity.
Qed.

Lemma run_roMixAsync (N : nat) (B : Scrypt.Blocks) (clock : Clock) :
  fst (run (Noble.roMixAsync N B clock)) = Scrypt.roMix N B.
Proof.
  unfold Noble.roMixAsync, Scrypt.roMix. rewrite run_await.
  rewrite run_asyncLoop.
  destruct (Scrypt.afterFill _) as [V X].
  rewrite run_await. cbn [run]. apply run_asyncLoop.
Qed.

Lemma run_lanesAsync (N : nat) (Bs : list (list Z)) (clock : Clock) :
  fst (run (Noble.lanesAsync N Bs clock)) =
  map (fun b => Scrypt.unwords (Scrypt.roMix N (Scrypt.words b))) Bs.
Proof.
  revert clock. induction Bs as [|b rest IH]; intros clock;
    cbn [Noble.lanesAsync map].
  - reflexivity.
  - rewrite !run_andThen. cbn [run fst snd].
    now rewrite IH, run_roMixAsync.
Qed.

Lemma run_scryptAsync_noble (clock : Clock) (password : string)
    (salt : bytes) (N r p : Z) (dkLen : nat) :
  run (scryptAsync_noble clock password salt N r p dkLen) =
  scrypt_noble password salt N r p dkLen.
Proof.
  unfold scryptAsync_noble, scrypt_noble, Noble.scryptAsync, Noble.scrypt.
  destruct (Noble.scryptInit N r p) as [[[N' r'] p']|e]; cbn [bind run];
    [|reflexivity].
  rewrite run_andThen. cbn [run]. rewrite run_lanesAsync. reflexivity.
Qed.

(** * The keystore codec *)

#[global] Opaque Noble.keccak_256 Noble.processCtr.

Lemma bind_ok {A B : Type} (r : result A) (f : A -> result B) (b : B) :
  bind r f = Ok b -> exists a, r = Ok a /\ f a = Ok b.
Proof.
  destruct r as [a|e]; cbn [bind]; [eauto|discriminate].
Qed.

(** [decrypt] once its three texts are decoded. *)
Lemma decrypt_decoded (keystore : Keystore) (key : Key) (as_ : option As)
    (key_ ciphertext stored : bytes) :
  decoded (Key.key key tt) = Ok key_ ->
  16 < List.length key_ ->
  decoded (Crypto.ciphertext (Keystore.crypto keystore)) = Ok ciphertext ->
  decoded (Crypto.mac (Keystore.crypto keystore)) = Ok stored ->
  decrypt keystore key as_ =
  if Bytes.isEqual
       (Hash.keccak256 (Bytes.concat (firstn 16 (skipn 16 key_)) ciphertext))
       stored
  then let* cipher := ctr (firstn 16 key_) (Key.iv key) in
       Ok (rendered as_ (Noble.decrypt cipher ciphertext))
  else Err CorruptKeystore.
Proof.
  unfold decoded. intros Hk Hlen Hc Hm. unfold decrypt.
  rewrite Hk. cbn [bind]. rewrite slice_0. cbn [bind].
  rewrite slice_ok by exact Hlen. cbn [bind].
  rewrite Hc. cbn [bind]. rewrite Hm. cbn [bind].
  change (32 - 16) with 16.
  destruct (Bytes.isEqual _ stored); cbn [negb]; [|reflexivity].
  destruct (ctr _ _) as [cipher|e]; cbn [bind]; [|reflexivity].
  destruct as_ as [[|]|]; reflexivity.
Qed.

(** Whatever [decrypt] returns went through every decoding step and through
    the comparison of the two macs. *)
Lemma decrypt_ok_inv (keystore : Keystore) (key : Key) (as_ : option As)
    (out : BytesLike) :
  decrypt keystore key as_ = Ok out ->
  exists key_ ciphertext,
    decoded (Key.key key tt) = Ok key_ /\
    16 < List.length key_ /\
    decoded (Crypto.ciphertext (Keystore.crypto keystore)) = Ok ciphertext /\
    decoded (Crypto.mac (Keystore.crypto keystore)) =
      Ok (Hash.keccak256
            (Bytes.concat (firstn 16 (skipn 16 key_)) ciphertext)) /\
    List.length (Key.iv key) = 16 /\
    out = rendered as_
            (Noble.processCtr (firstn 16 key_) (Key.iv key) ciphertext).
Proof.
  intros H. unfold decrypt in H.
  apply bind_ok in H as (key_ & Hk & H).
  apply bind_ok in H as (encKey & He & H).
  apply bind_ok in H as (macKey & Hmk & H).
  apply bind_ok in H as (ciphertext & Hc & H).
  apply bind_ok in H as (stored & Hs & H).
  rewrite slice_0 in He.
  assert (encKey = firstn 16 key_) as -> by congruence. clear He.
  apply slice_inv in Hmk as [-> Hlen]. specialize (Hlen ltac:(lia)).
  change (32 - 16) with 16 in *.
  destruct (Bytes.isEqual _ stored) eqn:Eq; cbn [negb] in H; [|discriminate].
  apply isEqual_eq in Eq. subst stored.
  apply bind_ok in H as (cipher & Hcipher & H).
  apply ctr_inv in Hcipher as (_ & Hiv & _ & Hdec).
  exists key_, ciphertext. repeat split; try assumption.
  rewrite <- Hdec. destruct as_ as [[|]|]; cbn [rendered]; congruence.
Qed.

(** [encrypt] once the key material and the private key are decoded. *)
Lemma encrypt_decoded (privateKey : BytesLike) (key : Key) (id : option string)
    (tape : Entropy) (key_ value_ : bytes) :
  decoded (Key.key key tt) = Ok key_ ->
  16 < List.length key_ ->
  Bytes.from privateKey = Ok value_ ->
  List.length (Key.iv key) = 16 ->
  let ciphertext := Noble.processCtr (firstn 16 key_) (Key.iv key) value_ in
  let mac :=
    Hash.keccak256 (Bytes.concat (firstn 16 (skipn 16 key_)) ciphertext) in
  let id_tape :=
    match id with Some i => (i, tape) | None => Platform.randomUUID tape end in
  encrypt privateKey key id tape =
  Ok ({| Keystore.crypto :=
           {| Crypto.cipher := "aes-128-ctr";
              Crypto.ciphertext := Hex.digits ciphertext;
              Crypto.cipherparams :=
                {| CipherParams.iv := Hex.digits (Key.iv key) |};
              Crypto.kdf := Key.kdf key;
              Crypto.kdfparams := Key.kdfparams key;
              Crypto.mac := Hex.digits mac |};
         Keystore.id := fst id_tape;
         Keystore.version := 3 |}, snd id_tape).
Proof.
  unfold decoded. intros Hk Hlen Hv Hiv. cbv zeta. unfold encrypt.
  destruct (match id with Some i => (i, tape) | None => _ end) as [i t].
  rewrite Hk. cbn [bind]. rewrite Hv. cbn [bind].
  rewrite slice_0. cbn [bind]. rewrite slice_ok by exact Hlen. cbn [bind].
  change (32 - 16) with 16.
  rewrite ctr_ok; [|rewrite length_firstn; lia|exact Hiv].
  cbn [bind Noble.encrypt fst snd]. reflexivity.
Qed.

(** Whatever [encrypt] returns was assembled from decoded material. *)
Lemma encrypt_ok_inv (privateKey : BytesLike) (key : Key) (id : option string)
    (tape : Entropy) (keystore : Keystore) (tape' : Entropy) :
  encrypt privateKey key id tape = Ok (keystore, tape') ->
  exists key_ value_,
    decoded (Key.key key tt) = Ok key_ /\
    16 < List.length key_ /\
    Bytes.from privateKey = Ok value_ /\
    List.length (Key.iv key) = 16.
Proof.
  intros H. unfold encrypt in H.
  destruct (match id with Some i => (i, tape) | None => _ end) as [i t].
  apply bind_ok in H as (key_ & Hk & H).
  apply bind_ok in H as (value_ & Hv & H).
  apply bind_ok in H as (encKey & He & H).
  apply bind_ok in H as (macKey & Hmk & H).
  apply bind_ok in H as (cipher & Hcipher & H).
  apply slice_inv in Hmk as [_ Hlen]. specialize (Hlen ltac:(lia)).
  apply ctr_inv in Hcipher as (_ & Hiv & _).
  exists key_, value_. auto.
Qed.

Lemma wellFormedKey_inv (key : Key) :
  wellFormedKey key = true ->
  List.length (Key.iv key) = 16 /\
  exists material,
    decoded (Key.key key tt) = Ok material /\ List.length material = 32.
Proof.
  unfold wellFormedKey. intros H. apply andb_true_iff in H as [Hiv H].
  apply Nat.eqb_eq in Hiv. split; [exact Hiv|].
  destruct (decoded (Key.key key tt)) as [material|e]; [|discriminate].
  apply Nat.eqb_eq in H. eauto.
Qed.

(** ** What [encrypt] writes and what [decrypt] reads back *)

Lemma encrypt_ok_shape (privateKey : BytesLike) (key : Key)
    (id : option string) (tape : Entropy) (keystore : Keystore)
    (tape' : Entropy) :
  encrypt privateKey key id tape = Ok (keystore, tape') ->
  exists key_ value_,
    decoded (Key.key key tt) = Ok key_ /\
    16 < List.length key_ /\
    Bytes.from privateKey = Ok value_ /\
    List.length (Key.iv key) = 16 /\
    let ciphertext := Noble.processCtr (firstn 16 key_) (Key.iv key) value_ in
    Keystore.crypto keystore =
      {| Crypto.cipher := "aes-128-ctr";
         Crypto.ciphertext := Hex.digits ciphertext;
         Crypto.cipherparams :=
           {| CipherParams.iv := Hex.digits (Key.iv key) |};
         Crypto.kdf := Key.kdf key;
         Crypto.kdfparams := Key.kdfparams key;
         Crypto.mac :=
           Hex.digits
             (Hash.keccak256
                (Bytes.concat (firstn 16 (skipn 16 key_)) ciphertext)) |} /\
    Keystore.version keystore = 3%Z.
Proof.
  intros H.
  destruct (encrypt_ok_inv _ _ _ _ _ _ H) as (key_ & value_ & Hk & Hlen & Hv & Hiv).
  exists key_, value_. repeat (split; [assumption|]).
  rewrite (encrypt_decoded _ _ id tape _ _ Hk Hlen Hv Hiv) in H.
  injection H as <- _. cbn [Keystore.crypto Keystore.version]. auto.
Qed.

Lemma decrypt_encrypt (privateKey : BytesLike) (value_ : bytes) (key : Key)
    (id : option string) (tape : Entropy) (keystore : Keystore)
    (tape' : Entropy) (as_ : option As) :
  Bytes.from privateKey = Ok value_ ->
  encrypt privateKey key id tape = Ok (keystore, tape') ->
  decrypt keystore key as_ = Ok (rendered as_ value_).
Proof.
  intros Hv H.
  destruct (encrypt_ok_shape _ _ _ _ _ _ H)
    as (key_ & v & Hk & Hlen & Hv' & Hiv & Hc & _).
  assert (v = value_) as -> by congruence. cbv zeta in Hc.
  rewrite (decrypt_decoded keystore key as_ key_
             (Noble.processCtr (firstn 16 key_) (Key.iv key) value_)
             (Hash.keccak256
                (Bytes.concat (firstn 16 (skipn 16 key_))
                   (Noble.processCtr (firstn 16 key_) (Key.iv key) value_))));
    try assumption.
  - rewrite isEqual_refl, ctr_ok; [|rewrite length_firstn; lia|exact Hiv].
    cbn [bind Noble.decrypt]. now rewrite processCtr_involutive.
  - rewrite Hc. cbn [Crypto.ciphertext]. apply from_prefixed_digits.
  - rewrite Hc. cbn [Crypto.mac]. apply from_prefixed_digits.
Qed.

(** The corrupt-keystore verdict is reached without the cipher: it is the
    same whatever iv the key carries. *)
Lemma decrypt_corrupt_any_iv (keystore : Keystore) (key : Key)
    (as_ : option As) (iv' : bytes) :
  decrypt keystore key as_ = Err CorruptKeystore ->
  decrypt keystore (withIv iv' key) as_ = Err CorruptKeystore.
Proof.
  unfold decrypt. cbn [withIv Key.key Key.iv].
  destruct (Bytes.from (prefixed (Key.key key tt))) as [key_|e];
    cbn [bind]; [|trivial].
  destruct (Bytes.slice key_ 0 16) as [encKey|e]; cbn [bind]; [|trivial].
  destruct (Bytes.slice key_ 16 32) as [macKey|e]; cbn [bind]; [|trivial].
  destruct (Bytes.from (prefixed (Crypto.ciphertext _))) as [ciphertext|e];
    cbn [bind]; [|trivial].
  destruct (Bytes.from (prefixed (Crypto.mac _))) as [stored|e];
    cbn [bind]; [|trivial].
  destruct (negb _); [trivial|].
  destruct (ctr encKey (Key.iv key)) as [cipher|e] eqn:E; cbn [bind].
  - destruct as_ as [[|]|]; discriminate.
  - apply ctr_err in E. subst e. discriminate.
Qed.

(** C1.  Whenever the key material, the ciphertext and the stored mac decode,
    a stored mac different from Keccak-256 over macKey followed by the
    ciphertext bytes makes [decrypt] fail with the corrupt-keystore error;
    [decrypt] returns a value only if the stored mac is that digest; and the
    corrupt-keystore failure is reached before the cipher is touched: it is
    the same for every iv, also for one the cipher would refuse. *)
Theorem decrypt_mac_gate (keystore : Keystore) (key : Key) (as_ : option As) :
  (forall key_ macKey ciphertext stored,
     decoded (Key.key key tt) = Ok key_ ->
     Bytes.slice key_ 16 32 = Ok macKey ->
     decoded (Crypto.ciphertext (Keystore.crypto keystore)) = Ok ciphertext ->
     decoded (Crypto.mac (Keystore.crypto keystore)) = Ok stored ->
     Hash.keccak256 (Bytes.concat macKey ciphertext) <> stored ->
     decrypt keystore key as_ = Err CorruptKeystore)
  /\
  (forall out,
     decrypt keystore key as_ = Ok out ->
     exists key_ macKey ciphertext,
       decoded (Key.key key tt) = Ok key_ /\
       Bytes.slice key_ 16 32 = Ok macKey /\
       decoded (Crypto.ciphertext (Keystore.crypto keystore)) = Ok ciphertext /\
       decoded (Crypto.mac (Keystore.crypto keystore)) =
         Ok (Hash.keccak256 (Bytes.concat macKey ciphertext)))
  /\
  (forall iv',
     decrypt keystore key as_ = Err CorruptKeystore ->
     decrypt keystore (withIv iv' key) as_ = Err CorruptKeystore).
Proof.
  split; [|split; [|intros iv'; apply decrypt_corrupt_any_iv]].
  - intros key_ macKey ciphertext stored Hk Hmk Hc Hs Hneq.
    apply slice_inv in Hmk as [-> Hlen]. specialize (Hlen ltac:(lia)).
    change (32 - 16) with 16 in Hneq.
    rewrite (decrypt_decoded _ _ as_ _ _ _ Hk Hlen Hc Hs).
    now rewrite isEqual_neq.
  - intros out H.
    apply decrypt_ok_inv in H as (key_ & ciphertext & Hk & Hlen & Hc & Hs & _).
    exists key_, (firstn 16 (skipn 16 key_)), ciphertext.
    repeat split; try assumption.
    now rewrite slice_ok.
Qed.

(** C2.  A well-formed key always encrypts, and decrypting what [encrypt]
    produced with the same key gives back exactly the private key: the raw
    bytes under ['Bytes'], their hex text by default. *)
Theorem decrypt_encrypt_roundtrip (pk : bytes) (key : Key)
    (id : option string) (tape : Entropy) :
  (wellFormedKey key = true ->
   is_ok (encrypt (OfBytes pk) key id tape) = true)
  /\
  (forall keystore tape',
     encrypt (OfBytes pk) key id tape = Ok (keystore, tape') ->
     decrypt keystore key (Some AsBytes) = Ok (OfBytes pk) /\
     decrypt keystore key None = Ok (OfHex (Bytes.toHex pk)) /\
     decrypt keystore key (Some AsHex) = Ok (OfHex (Bytes.toHex pk))).
Proof.
  split.
  - intros Hwf.
    apply wellFormedKey_inv in Hwf as (Hiv & material & Hk & Hlen).
    rewrite (encrypt_decoded (OfBytes pk) key id tape material pk);
      try assumption; try reflexivity. lia.
  - intros keystore tape' H.
    pose proof (fun as_ =>
      decrypt_encrypt (OfBytes pk) pk key id tape keystore tape' as_
        eq_refl H) as E.
    repeat split; [apply (E (Some AsBytes))|apply (E None)|
                   apply (E (Some AsHex))].
Qed.

(** C4.  The record [encrypt] produces names the cipher [aes-128-ctr] and
    version 3, carries the key's own kdf tag and kdfparams, writes
    ciphertext, iv and mac as lowercase hex without [0x], and its ciphertext
    decodes to as many bytes as the private key and its mac to 32 bytes. *)
Theorem encrypt_record_shape (privateKey : BytesLike) (key : Key)
    (id : option string) (tape : Entropy) (keystore : Keystore)
    (tape' : Entropy) :
  encrypt privateKey key id tape = Ok (keystore, tape') ->
  let c := Keystore.crypto keystore in
  Crypto.cipher c = "aes-128-ctr"%string /\
  Keystore.version keystore = 3%Z /\
  Crypto.kdf c = Key.kdf key /\
  Crypto.kdfparams c = Key.kdfparams key /\
  (forall text,
     In text [Crypto.ciphertext c; CipherParams.iv (Crypto.cipherparams c);
              Crypto.mac c] ->
     Hex.is_lower_hex text = true /\ prefix "0x" text = false) /\
  (exists value_ ciphertext mac,
     Bytes.from privateKey = Ok value_ /\
     decoded (Crypto.ciphertext c) = Ok ciphertext /\
     List.length ciphertext = List.length value_ /\
     String.length (Crypto.ciphertext c) = 2 * List.length value_ /\
     decoded (Crypto.mac c) = Ok mac /\
     List.length mac = 32 /\
     String.length (Crypto.mac c) = 64) /\
  decoded (CipherParams.iv (Crypto.cipherparams c)) = Ok (Key.iv key).
Proof.
  intros H c. subst c.
  destruct (encrypt_ok_shape _ _ _ _ _ _ H)
    as (key_ & value_ & Hk & Hlen & Hv & Hiv & Hc & Hver).
  cbv zeta in Hc. rewrite Hc.
  cbn [Crypto.cipher Crypto.kdf Crypto.kdfparams Crypto.ciphertext
       Crypto.cipherparams Crypto.mac CipherParams.iv].
  repeat (split; [assumption || reflexivity|]).
  split; [|split; [|apply from_prefixed_digits]].
  - intros text Hin.
    assert (Hex.is_lower_hex text = true) as Hlow
      by (destruct Hin as [<-|[<-|[<-|[]]]]; apply is_lower_hex_digits).
    split; [exact Hlow|now apply lower_hex_no_prefix].
  - exists value_. eexists. eexists.
    split; [exact Hv|].
    split; [apply from_prefixed_digits|].
    split; [apply length_processCtr|].
    split; [now rewrite length_digits, length_processCtr|].
    split; [apply from_prefixed_digits|].
    split; [apply length_keccak256|].
    now rewrite length_digits, length_keccak256.
Qed.

(** [decrypt] looks at two fields of the record only. *)
Lemma decrypt_reads_two_fields (keystore keystore' : Keystore) (key : Key)
    (as_ : option As) :
  Crypto.ciphertext (Keystore.crypto keystore) =
    Crypto.ciphertext (Keystore.crypto keystore') ->
  Crypto.mac (Keystore.crypto keystore) =
    Crypto.mac (Keystore.crypto keystore') ->
  decrypt keystore key as_ = decrypt keystore' key as_.
Proof.
  intros Hc Hm. unfold decrypt. now rewrite Hc, Hm.
Qed.



(** C10.  [decrypt] never reads [crypto.cipherparams.iv]: replacing the
    stored iv by any text leaves the outcome unchanged, and whatever
    [decrypt] returns is the ciphertext run through AES-CTR started at the
    iv of the key that was handed in. *)
Theorem decrypt_ignores_stored_iv (keystore : Keystore) (key : Key)
    (as_ : option As) :
  (forall iv',
     decrypt (withCrypto (setStoredIv iv') keystore) key as_ =
     decrypt keystore key as_)
  /\
  (forall out,
     decrypt keystore key as_ = Ok out ->
     exists key_ ciphertext,
       decoded (Key.key key tt) = Ok key_ /\
       decoded (Crypto.ciphertext (Keystore.crypto keystore)) = Ok ciphertext /\
       out = rendered as_
               (Noble.processCtr (firstn 16 key_) (Key.iv key) ciphertext)).
Proof.
  split.
  - intros iv'. apply decrypt_reads_two_fields; reflexivity.
  - intros out H.
    apply decrypt_ok_inv in H as (key_ & ciphertext & Hk & _ & Hc & _ & _ & ->).
    eauto.
Qed.

(** ** The fixed-input case, run through the statements above *)

Example options0_derive_key0 : pbkdf2 options0 tape0 = Ok (key0, tape0).
Proof. vm_compute. reflexivity. Qed.

Example key0_encrypts_privateKey0 :
  encrypt (OfBytes privateKey0) key0 (Some "k0"%string) tape0 =
  Ok (keystore0, tape0).
Proof. vm_compute. reflexivity. Qed.

Lemma decrypt_mac_gate_witness :
  decrypt
    (withCrypto
       (setMac "28c863f9bf79508d5e4b58481b4712344e0186a08076e019e69e29640088fd59")
       keystore0)
    key0 None = Err CorruptKeystore
  /\
  (exists key_ macKey ciphertext,
     decoded (Key.key key0 tt) = Ok key_ /\
     Bytes.slice key_ 16 32 = Ok macKey /\
     decoded (Crypto.ciphertext (Keystore.crypto keystore0)) = Ok ciphertext /\
     decoded (Crypto.mac (Keystore.crypto keystore0)) =
       Ok (Hash.keccak256 (Bytes.concat macKey ciphertext)))
  /\
  decrypt
    (withCrypto
       (setMac "28c863f9bf79508d5e4b58481b4712344e0186a08076e019e69e29640088fd59")
       keystore0)
    (withIv [x01; x02; x03] key0) None = Err CorruptKeystore.
Proof.
  split; [|split].
  - eapply (proj1 (decrypt_mac_gate _ _ _)).
    + vm_compute. reflexivity.
    + vm_compute. reflexivity.
    + vm_compute. reflexivity.
    + vm_compute. reflexivity.
    + vm_compute. discriminate.
  - apply (proj1 (proj2 (decrypt_mac_gate keystore0 key0 None))
             (OfHex (Bytes.toHex privateKey0))).
    vm_compute. reflexivity.
  - apply (proj2 (proj2 (decrypt_mac_gate _ key0 None))).
    vm_compute. reflexivity.
Defined.

Lemma decrypt_encrypt_roundtrip_witness :
  is_ok (encrypt (OfBytes privateKey0) key0 (Some "k0"%string) tape0) = true
  /\ decrypt keystore0 key0 (Some AsBytes) = Ok (OfBytes privateKey0)
  /\ decrypt keystore0 key0 None = Ok (OfHex (Bytes.toHex privateKey0))
  /\ decrypt keystore0 key0 (Some AsHex) = Ok (OfHex (Bytes.toHex privateKey0)).
Proof.
  split.
  - apply (proj1 (decrypt_encrypt_roundtrip privateKey0 key0
                    (Some "k0"%string) tape0)).
    vm_compute. reflexivity.
  - apply (proj2 (decrypt_encrypt_roundtrip privateKey0 key0
                    (Some "k0"%string) tape0) keystore0 tape0).
    vm_compute. reflexivity.
Defined.

Lemma encrypt_record_shape_witness :
  Crypto.cipher crypto0 = "aes-128-ctr"%string /\
  Keystore.version keystore0 = 3%Z /\
  String.length (Crypto.ciphertext crypto0) = 2 * 31 /\
  String.length (Crypto.mac crypto0) = 64.
Proof.
  pose proof (encrypt_record_shape (OfBytes privateKey0) key0
                (Some "k0"%string) tape0 keystore0 tape0) as H.
  cbv zeta in H.
  destruct H as (Hc & Hv & _ & _ & _ & (v & c & m & Hf & _ & _ & Hl & _ & _ & Hm)
                 & _).
  - vm_compute. reflexivity.
  - injection Hf as <-. auto.
Defined.


Lemma decrypt_ignores_stored_iv_witness :
  decrypt
    (withCrypto (setStoredIv "ffffffffffffffffffffffffffffffff") keystore0)
    key0 (Some AsBytes) = Ok (OfBytes privateKey0)
  /\
  exists key_ ciphertext,
    decoded (Key.key key0 tt) = Ok key_ /\
    decoded (Crypto.ciphertext (Keystore.crypto keystore0)) = Ok ciphertext /\
    OfBytes privateKey0 =
      rendered (Some AsBytes)
        (Noble.processCtr (firstn 16 key_) (Key.iv key0) ciphertext).
Proof.
  split.
  - rewrite (proj1 (decrypt_ignores_stored_iv keystore0 key0 (Some AsBytes))).
    vm_compute. reflexivity.
  - apply (proj2 (decrypt_ignores_stored_iv keystore0 key0 (Some AsBytes))).
    vm_compute. reflexivity.
Defined.

(** * Key derivation *)

#[global] Opaque Noble.pbkdf2 Noble.scrypt Noble.pbkdf2Async Noble.scryptAsync.

Lemma fromOrRandom_usable (value : option BytesLike) (length : nat)
    (tape : Entropy) :
  usable value = true -> is_ok (fromOrRandom value length tape) = true.
Proof.
  unfold usable, fromOrRandom. destruct value as [v|]; [|reflexivity].
  destruct (truthy (Some v)); [|reflexivity].
  destruct (Bytes.from v); [reflexivity|discriminate].
Qed.

Lemma is_ok_true {A : Type} (r : result A) :
  is_ok r = true -> exists a, r = Ok a.
Proof. destruct r; [eauto|discriminate]. Qed.

Lemma defineKey_ok_inv (value : defineKey.Value) (tape : Entropy) (key : Key)
    (tape' : Entropy) :
  defineKey value tape = Ok (key, tape') ->
  fromOrRandom (defineKey.iv value) 16 tape = Ok (Key.iv key, tape') /\
  Key.key key = defineKey.key value /\
  Key.kdfparams key = defineKey.kdfparams value /\
  Key.kdf key = defineKey.kdf value.
Proof.
  unfold defineKey. intros H. apply bind_ok in H as ([iv t] & Hr & H).
  injection H as <- <-. cbn [fst snd Key.iv Key.key Key.kdfparams Key.kdf].
  auto.
Qed.

Lemma defineKey_usable (value : defineKey.Value) (tape : Entropy) :
  usable (defineKey.iv value) = true -> is_ok (defineKey value tape) = true.
Proof.
  intros H. unfold defineKey.
  destruct (is_ok_true _ (fromOrRandom_usable _ 16 tape H)) as (r & ->).
  reflexivity.
Qed.

Lemma pbkdf2_ok_inv (options : pbkdf2.Options) (tape : Entropy) (key : Key)
    (tape' : Entropy) :
  pbkdf2 options tape = Ok (key, tape') ->
  exists salt tapeS material,
    fromOrRandom (pbkdf2.salt options) 32 tape = Ok (salt, tapeS) /\
    pbkdf2_noble sha256 (pbkdf2.password options) salt
      (orDefault (pbkdf2.iterations options)) 32 = Ok material /\
    fromOrRandom (pbkdf2.iv options) 16 tapeS = Ok (Key.iv key, tape') /\
    Key.key key tt = Hex.digits material /\
    Key.kdf key = "pbkdf2"%string /\
    Key.kdfparams key =
      Pbkdf2Params (orDefault (pbkdf2.iterations options)) 32 "hmac-sha256"
        (Hex.digits salt).
Proof.
  unfold pbkdf2. intros H.
  apply bind_ok in H as ([salt tapeS] & Hs & H).
  apply bind_ok in H as (material & Hm & H).
  apply defineKey_ok_inv in H as (Hiv & Hkey & Hparams & Hkdf).
  cbn [fst snd defineKey.iv defineKey.key defineKey.kdfparams defineKey.kdf]
    in *.
  exists salt, tapeS, material. rewrite Hkey, Hparams, Hkdf.
  repeat split; assumption.
Qed.

Lemma scrypt_ok_inv (options : scrypt.Options) (tape : Entropy) (key : Key)
    (tape' : Entropy) :
  scrypt options tape = Ok (key, tape') ->
  exists salt tapeS material,
    fromOrRandom (scrypt.salt options) 32 tape = Ok (salt, tapeS) /\
    scrypt_noble (scrypt.password options) salt
      (orDefault (scrypt.n options)) 1 8 32 = Ok material /\
    fromOrRandom (scrypt.iv options) 16 tapeS = Ok (Key.iv key, tape') /\
    Key.key key tt = Hex.digits material /\
    Key.kdf key = "scrypt"%string /\
    Key.kdfparams key =
      ScryptParams 32 (orDefault (scrypt.n options)) 8 1 (Hex.digits salt).
Proof.
  unfold scrypt. intros H.
  apply bind_ok in H as ([salt tapeS] & Hs & H).
  apply bind_ok in H as (material & Hm & H).
  apply defineKey_ok_inv in H as (Hiv & Hkey & Hparams & Hkdf).
  cbn [fst snd defineKey.iv defineKey.key defineKey.kdfparams defineKey.kdf]
    in *.
  exists salt, tapeS, material. rewrite Hkey, Hparams, Hkdf.
  repeat split; assumption.
Qed.

(** C6.  Whenever [pbkdf2] returns a key, its material is the 32 bytes of
    PBKDF2-HMAC-SHA256 over the salt actually used, and its kdfparams are
    c = iterations (262144 when omitted), dklen = 32, prf = hmac-sha256 and
    the hex of that salt; whenever [scrypt] returns a key, its material is 32
    bytes and its kdfparams are n = N (262144 when omitted), r = 1, p = 8,
    dklen = 32 and the salt, r and p being constants of the code.  Both
    return a key whenever salt and iv convert and the work factor is one the
    primitive accepts, which the default is. *)
Theorem derived_key_shape :
  (forall options tape key tape',
     pbkdf2 options tape = Ok (key, tape') ->
     exists salt tapeS material,
       fromOrRandom (pbkdf2.salt options) 32 tape = Ok (salt, tapeS) /\
       pbkdf2_noble sha256 (pbkdf2.password options) salt
         (orDefault (pbkdf2.iterations options)) 32 = Ok material /\
       decoded (Key.key key tt) = Ok material /\
       List.length material = 32 /\
       Key.kdf key = "pbkdf2"%string /\
       Key.kdfparams key =
         Pbkdf2Params (orDefault (pbkdf2.iterations options)) 32
           "hmac-sha256" (Hex.digits salt))
  /\
  (forall options tape,
     usable (pbkdf2.salt options) = true ->
     usable (pbkdf2.iv options) = true ->
     (1 <= orDefault (pbkdf2.iterations options) <= Noble.maxSafeInteger)%Z ->
     is_ok (pbkdf2 options tape) = true)
  /\
  (forall options tape key tape',
     scrypt options tape = Ok (key, tape') ->
     exists salt tapeS material,
       fromOrRandom (scrypt.salt options) 32 tape = Ok (salt, tapeS) /\
       scrypt_noble (scrypt.password options) salt
         (orDefault (scrypt.n options)) 1 8 32 = Ok material /\
       decoded (Key.key key tt) = Ok material /\
       List.length material = 32 /\
       Key.kdf key = "scrypt"%string /\
       Key.kdfparams key =
         ScryptParams 32 (orDefault (scrypt.n options)) 8 1 (Hex.digits salt))
  /\
  (forall options tape,
     usable (scrypt.salt options) = true ->
     usable (scrypt.iv options) = true ->
     is_ok (Noble.scryptInit (orDefault (scrypt.n options)) 1 8) = true ->
     is_ok (scrypt options tape) = true)
  /\
  orDefault None = 262144%Z.
Proof.
  split; [|split; [|split; [|split; [|reflexivity]]]].
  - intros options tape key tape' H.
    apply pbkdf2_ok_inv in H
      as (salt & tapeS & material & Hs & Hm & _ & Hkey & Hkdf & Hparams).
    exists salt, tapeS, material. repeat split; try assumption.
    + rewrite Hkey. apply from_prefixed_digits.
    + apply (length_pbkdf2_noble _ _ _ _ _ Hm).
  - intros options tape Hsalt Hiv Hc. unfold pbkdf2.
    destruct (is_ok_true _ (fromOrRandom_usable _ 32 tape Hsalt))
      as ([salt tapeS] & ->).
    cbn [bind fst snd].
    destruct (pbkdf2_noble_ok (pbkdf2.password options) salt _ 32 Hc)
      as (material & Hm).
    fold (orDefault (pbkdf2.iterations options)). rewrite Hm. cbn [bind].
    now apply defineKey_usable.
  - intros options tape key tape' H.
    apply scrypt_ok_inv in H
      as (salt & tapeS & material & Hs & Hm & _ & Hkey & Hkdf & Hparams).
    exists salt, tapeS, material. repeat split; try assumption.
    + rewrite Hkey. apply from_prefixed_digits.
    + apply (length_scrypt_noble _ _ _ _ _ _ _ Hm).
  - intros options tape Hsalt Hiv Hn. unfold scrypt.
    destruct (is_ok_true _ (fromOrRandom_usable _ 32 tape Hsalt))
      as ([salt tapeS] & ->).
    cbn [bind fst snd]. fold (orDefault (scrypt.n options)).
    destruct (scrypt_noble_ok (scrypt.password options) salt _ _ _ 32 Hn)
      as (material & Hm).
    rewrite Hm. cbn [bind]. now apply defineKey_usable.
Qed.

Lemma derived_key_shape_witness :
  (exists salt tapeS material,
     fromOrRandom (pbkdf2.salt options0) 32 tape0 = Ok (salt, tapeS) /\
     pbkdf2_noble sha256 (pbkdf2.password options0) salt
       (orDefault (pbkdf2.iterations options0)) 32 = Ok material /\
     decoded (Key.key key0 tt) = Ok material /\
     List.length material = 32 /\
     Key.kdf key0 = "pbkdf2"%string /\
     Key.kdfparams key0 =
       Pbkdf2Params (orDefault (pbkdf2.iterations options0)) 32
         "hmac-sha256" (Hex.digits salt))
  /\ is_ok (pbkdf2 (defaults "testpassword") tape0) = true
  /\ (exists salt tapeS material,
        fromOrRandom (scrypt.salt scryptOptions0) 32 tape0 = Ok (salt, tapeS) /\
        scrypt_noble (scrypt.password scryptOptions0) salt
          (orDefault (scrypt.n scryptOptions0)) 1 8 32 = Ok material /\
        decoded (Key.key scryptKey0 tt) = Ok material /\
        List.length material = 32 /\
        Key.kdf scryptKey0 = "scrypt"%string /\
        Key.kdfparams scryptKey0 =
          ScryptParams 32 (orDefault (scrypt.n scryptOptions0)) 8 1
            (Hex.digits salt))
  /\ is_ok (scrypt (scryptDefaults "testpassword") tape0) = true.
Proof.
  destruct derived_key_shape as (Hp & Hpt & Hs & Hst & _).
  split; [|split; [|split]].
  - apply (Hp options0 tape0 key0 tape0). vm_compute. reflexivity.
  - apply Hpt.
    + reflexivity.
    + reflexivity.
    + vm_compute. split; discriminate.
  - apply (Hs scryptOptions0 tape0 scryptKey0 tape0). vm_compute. reflexivity.
  - apply Hst.
    + reflexivity.
    + reflexivity.
    + vm_compute. reflexivity.
Defined.

(** * Blocking and non-blocking derivation *)

(** C7.  Fed the same options and the same entropy, the promise of
    [pbkdf2Async] settles to exactly what [pbkdf2] returns, and the promise
    of [scryptAsync] to exactly what [scrypt] returns, whenever the event
    loop is given control in between: material, kdf tag, kdfparams and iv
    are the same, and so is a failure. *)
Theorem async_agrees_with_sync (clock : Clock) (tape : Entropy) :
  (forall options, run (pbkdf2Async clock options tape) = pbkdf2 options tape)
  /\
  (forall options, run (scryptAsync clock options tape) = scrypt options tape).
Proof.
  split; intros options.
  - unfold pbkdf2Async, pbkdf2.
    destruct (fromOrRandom (pbkdf2.salt options) 32 tape) as [s|e];
      cbn [bind run]; [|reflexivity].
    rewrite run_await, run_pbkdf2Async_noble. reflexivity.
  - unfold scryptAsync, scrypt.
    destruct (fromOrRandom (scrypt.salt options) 32 tape) as [s|e];
      cbn [bind run]; [|reflexivity].
    rewrite run_await, run_scryptAsync_noble. reflexivity.
Qed.

(** * Where the code differs from the prose *)

Lemma fromPairs_err (s : string) :
  (forall e, Bytes.fromPairs s = Err e -> e = InvalidByteSequence) /\
  (forall c e, Bytes.fromPairs (String c s) = Err e -> e = InvalidByteSequence).
Proof.
  induction s as [|a s [IH1 IH2]].
  - split; intros; cbn [Bytes.fromPairs] in *; congruence.
  - split; [exact (IH2 a)|].
    intros c e. cbn [Bytes.fromPairs].
    destruct (Bytes.charCodeToBase16 c), (Bytes.charCodeToBase16 a);
      try congruence.
    destruct (Bytes.fromPairs s) as [tail|e'] eqn:E; cbn [bind]; [congruence|].
    intros H. injection H as <-. now apply IH1.
Qed.

(** The byte codec knows one failure. *)
Lemma decoded_err (text : string) (e : error) :
  decoded text = Err e -> e = InvalidByteSequence.
Proof.
  unfold decoded, prefixed, Bytes.from, Bytes.fromHex.
  cbn [append Hex.slice2].
  destruct (Nat.odd (String.length text)); apply fromPairs_err.
Qed.

Lemma not_ok_decoded (text : string) :
  is_ok (decoded text) = false -> decoded text = Err InvalidByteSequence.
Proof.
  destruct (decoded text) as [b|e] eqn:E; [discriminate|].
  intros _. now rewrite (decoded_err _ _ E).
Qed.

(** [decrypt] sees the two hex fields through their decoding only. *)
Lemma decrypt_reads_decoded (keystore keystore' : Keystore) (key : Key)
    (as_ : option As) :
  decoded (Crypto.ciphertext (Keystore.crypto keystore)) =
    decoded (Crypto.ciphertext (Keystore.crypto keystore')) ->
  decoded (Crypto.mac (Keystore.crypto keystore)) =
    decoded (Crypto.mac (Keystore.crypto keystore')) ->
  decrypt keystore key as_ = decrypt keystore' key as_.
Proof.
  unfold decoded. intros Hc Hm. unfold decrypt. now rewrite Hc, Hm.
Qed.

Lemma xor_mask_neq (b : byte) (i : nat) :
  i < 8 -> Noble.xor_byte b (mask i) <> b.
Proof.
  intros Hi H. apply (f_equal Byte.to_bits) in H.
  unfold Noble.xor_byte, mask in H. rewrite !Byte.to_bits_of_bits in H.
  destruct (Byte.to_bits b) as (b0 & b1 & b2 & b3 & b4 & b5 & b6 & b7).
  cbn [Noble.xor_bits] in H.
  injection H as H0 H1 H2 H3 H4 H5 H6 H7.
  do 8 (destruct i as [|i];
        [cbn [Nat.eqb] in *;
         match goal with
         | E : xorb ?x true = ?x |- _ => destruct x; discriminate E
         end|]).
  lia.
Qed.

Lemma flipBit_neq (i : nat) (data : bytes) :
  i < 8 * List.length data -> flipBit i data <> data.
Proof.
  revert i. induction data as [|b rest IH]; intros i Hi;
    cbn [List.length flipBit] in *; [lia|].
  destruct (i <? 8) eqn:E.
  - apply Nat.ltb_lt in E. intros H. injection H as H.
    now apply (xor_mask_neq b i).
  - apply Nat.ltb_ge in E. intros H. injection H as H.
    apply (IH (i - 8)); [lia|exact H].
Qed.

(** With decodable key material, hex text is the one thing [decrypt]
    insists on in the two fields it reads. *)
Lemma decrypt_not_hex (keystore : Keystore) (key : Key) (as_ : option As)
    (key_ : bytes) :
  decoded (Key.key key tt) = Ok key_ ->
  16 < List.length key_ ->
  (is_ok (decoded (Crypto.ciphertext (Keystore.crypto keystore))) = false ->
   decrypt keystore key as_ = Err InvalidByteSequence) /\
  (is_ok (decoded (Crypto.ciphertext (Keystore.crypto keystore))) = true ->
   is_ok (decoded (Crypto.mac (Keystore.crypto keystore))) = false ->
   decrypt keystore key as_ = Err InvalidByteSequence).
Proof.
  intros Hk Hlen. split.
  - intros Hc. apply not_ok_decoded in Hc. unfold decoded in *.
    unfold decrypt. rewrite Hk. cbn [bind]. rewrite slice_0. cbn [bind].
    rewrite slice_ok by exact Hlen. cbn [bind]. now rewrite Hc.
  - intros Hc Hm. apply is_ok_true in Hc as (ciphertext & Hc).
    apply not_ok_decoded in Hm. unfold decoded in *.
    unfold decrypt. rewrite Hk. cbn [bind]. rewrite slice_0. cbn [bind].
    rewrite slice_ok by exact Hlen. cbn [bind]. rewrite Hc. cbn [bind].
    now rewrite Hm.
Qed.

(** C3, as the code has it.  [decrypt] validates nothing but hex: only
    [crypto.ciphertext] and [crypto.mac] are read, so records that agree on
    them decrypt alike whatever their version, cipher, kdf, kdfparams, stored
    iv and id; with decodable key material, a ciphertext or a mac that is
    not hex text is refused with the invalid-byte-sequence error of the byte
    codec, and a mac that does not decode to 32 bytes is refused as a
    corrupt keystore. *)
Theorem decrypt_validates_hex_only (key : Key) (as_ : option As) :
  (forall keystore keystore',
     Crypto.ciphertext (Keystore.crypto keystore) =
       Crypto.ciphertext (Keystore.crypto keystore') ->
     Crypto.mac (Keystore.crypto keystore) =
       Crypto.mac (Keystore.crypto keystore') ->
     decrypt keystore key as_ = decrypt keystore' key as_)
  /\
  (forall keystore key_,
     decoded (Key.key key tt) = Ok key_ ->
     16 < List.length key_ ->
     (is_ok (decoded (Crypto.ciphertext (Keystore.crypto keystore))) = false ->
      decrypt keystore key as_ = Err InvalidByteSequence) /\
     (is_ok (decoded (Crypto.ciphertext (Keystore.crypto keystore))) = true ->
      is_ok (decoded (Crypto.mac (Keystore.crypto keystore))) = false ->
      decrypt keystore key as_ = Err InvalidByteSequence) /\
     (forall ciphertext stored,
        decoded (Crypto.ciphertext (Keystore.crypto keystore)) = Ok ciphertext ->
        decoded (Crypto.mac (Keystore.crypto keystore)) = Ok stored ->
        List.length stored <> 32 ->
        decrypt keystore key as_ = Err CorruptKeystore)).
Proof.
  split; [intros; now apply decrypt_reads_two_fields|].
  intros keystore key_ Hk Hlen.
  destruct (decrypt_not_hex keystore key as_ key_ Hk Hlen) as [Hct Hmac].
  split; [exact Hct|split; [exact Hmac|]].
  intros ciphertext stored Hc Hs Hlen'.
  rewrite (decrypt_decoded _ _ as_ _ _ _ Hk Hlen Hc Hs).
  rewrite isEqual_neq; [reflexivity|].
  intros E. apply Hlen'. rewrite <- E. apply length_keccak256.
Qed.

(** C3 as written fails: a record with version 4, cipher aes-256-cbc, kdf
    argon2 and a stored iv that is not hex is not rejected, it decrypts. *)
Lemma decrypt_accepts_malformed_record :
  structurallyValid malformed0 = false /\
  Keystore.version malformed0 = 4%Z /\
  decrypt malformed0 key0 None = Ok (OfHex (Bytes.toHex privateKey0)).
Proof. vm_compute. repeat split. Qed.

Lemma decrypt_validates_hex_only_witness :
  decrypt malformed0 key0 None = decrypt keystore0 key0 None /\
  decrypt (withCrypto (setCiphertext "0g") keystore0) key0 None =
    Err InvalidByteSequence /\
  decrypt (withCrypto (setMac "0g") keystore0) key0 None =
    Err InvalidByteSequence /\
  decrypt (withCrypto (setMac "28c8") keystore0) key0 None =
    Err CorruptKeystore.
Proof.
  destruct (decrypt_validates_hex_only key0 None) as [Hsame Hhex].
  split; [apply Hsame; reflexivity|].
  split; [|split].
  - apply (proj1 (Hhex (withCrypto (setCiphertext "0g") keystore0) material0
                    ltac:(vm_compute; reflexivity) ltac:(vm_compute; lia))).
    vm_compute. reflexivity.
  - apply (proj1 (proj2 (Hhex (withCrypto (setMac "0g") keystore0) material0
                    ltac:(vm_compute; reflexivity) ltac:(vm_compute; lia)))).
    + vm_compute. reflexivity.
    + vm_compute. reflexivity.
  - eapply (proj2 (proj2 (Hhex (withCrypto (setMac "28c8") keystore0) material0
                    ltac:(vm_compute; reflexivity) ltac:(vm_compute; lia)))).
    + vm_compute. reflexivity.
    + vm_compute. reflexivity.
    + vm_compute. discriminate.
Defined.

(** C9, as the code has it.  A derivation does not look at the length of
    the iv: whatever the caller supplied is converted to bytes and carried
    into the key as it is.  A length other than 16 is refused by the cipher
    when the key is used: [encrypt] never succeeds with such a key and fails
    with the invalid-length error once key material and private key decode,
    and [decrypt] never succeeds with it; nothing is truncated or padded. *)
Theorem iv_length_checked_by_cipher_only :
  (forall options tape key tape' v,
     pbkdf2 options tape = Ok (key, tape') ->
     pbkdf2.iv options = Some v ->
     truthy (Some v) = true ->
     Bytes.from v = Ok (Key.iv key))
  /\
  (forall options tape key tape' v,
     scrypt options tape = Ok (key, tape') ->
     scrypt.iv options = Some v ->
     truthy (Some v) = true ->
     Bytes.from v = Ok (Key.iv key))
  /\
  (forall privateKey key id tape,
     List.length (Key.iv key) <> 16 ->
     is_ok (encrypt privateKey key id tape) = false /\
     (forall key_ value_,
        decoded (Key.key key tt) = Ok key_ ->
        16 < List.length key_ ->
        Bytes.from privateKey = Ok value_ ->
        encrypt privateKey key id tape = Err InputLength))
  /\
  (forall keystore key as_,
     List.length (Key.iv key) <> 16 ->
     is_ok (decrypt keystore key as_) = false).
Proof.
  assert (forall iv tapeS b tape' v,
            fromOrRandom iv 16 tapeS = Ok (b, tape') ->
            iv = Some v -> truthy (Some v) = true -> Bytes.from v = Ok b)
    as Hverbatim.
  { intros iv tapeS b tape' v H -> Ht. unfold fromOrRandom in H.
    rewrite Ht in H. apply bind_ok in H as (b' & Hb & H).
    injection H as <- _. exact Hb. }
  split; [|split; [|split]].
  - intros options tape key tape' v H Hv Ht.
    apply pbkdf2_ok_inv in H as (_ & tapeS & _ & _ & _ & Hiv & _).
    exact (Hverbatim _ _ _ _ _ Hiv Hv Ht).
  - intros options tape key tape' v H Hv Ht.
    apply scrypt_ok_inv in H as (_ & tapeS & _ & _ & _ & Hiv & _).
    exact (Hverbatim _ _ _ _ _ Hiv Hv Ht).
  - intros privateKey key id tape Hiv. split.
    + destruct (encrypt privateKey key id tape) as [[keystore tape']|e] eqn:E;
        [|reflexivity].
      apply encrypt_ok_inv in E as (_ & _ & _ & _ & _ & Hiv'). contradiction.
    + intros key_ value_ Hk Hlen Hv. unfold decoded in Hk. unfold encrypt.
      destruct (match id with Some i => (i, tape) | None => _ end) as [i t].
      rewrite Hk. cbn [bind]. rewrite Hv. cbn [bind].
      rewrite slice_0. cbn [bind]. rewrite slice_ok by exact Hlen.
      cbn [bind]. now rewrite ctr_bad_nonce.
  - intros keystore key as_ Hiv.
    destruct (decrypt keystore key as_) as [out|e] eqn:E; [|reflexivity].
    apply decrypt_ok_inv in E as (_ & _ & _ & _ & _ & _ & Hiv' & _).
    contradiction.
Qed.

(** C9 as written fails: a derivation given an iv of three bytes does not
    fail, it returns a key that carries those three bytes. *)
Lemma derivation_accepts_short_iv :
  pbkdf2 shortIvOptions tape0 = Ok (withIv [x01; x02; x03] key0, tape0) /\
  List.length (Key.iv (withIv [x01; x02; x03] key0)) = 3.
Proof. vm_compute. split; reflexivity. Qed.

Lemma iv_length_checked_by_cipher_only_witness :
  Bytes.from (OfBytes [x01; x02; x03]) =
    Ok (Key.iv (withIv [x01; x02; x03] key0)) /\
  Bytes.from (OfBytes (zeros 16)) = Ok (Key.iv scryptKey0) /\
  encrypt (OfBytes privateKey0) (withIv [x01; x02; x03] key0) None tape0 =
    Err InputLength /\
  is_ok (decrypt keystore0 (withIv [x01; x02; x03] key0) None) = false.
Proof.
  destruct iv_length_checked_by_cipher_only as (Hp & Hs & He & Hd).
  split; [|split; [|split]].
  - apply (Hp shortIvOptions tape0 _ tape0).
    + vm_compute. reflexivity.
    + reflexivity.
    + reflexivity.
  - apply (Hs scryptOptions0 tape0 _ tape0).
    + vm_compute. reflexivity.
    + reflexivity.
    + reflexivity.
  - apply (proj2 (He (OfBytes privateKey0) (withIv [x01; x02; x03] key0) None
                    tape0 ltac:(vm_compute; discriminate)) material0
             privateKey0).
    + vm_compute. reflexivity.
    + vm_compute. lia.
    + reflexivity.
  - apply Hd. vm_compute. discriminate.
Defined.

(** * Further properties of Keystore.js *)

(** ** What a derivation takes from the random source *)

Lemma fromOrRandom_given (value : option BytesLike) (length : nat)
    (tape : Entropy) :
  truthy value = true ->
  exists v,
    value = Some v /\
    fromOrRandom value length tape =
      (let* b := Bytes.from v in Ok (b, tape)).
Proof.
  intros H. destruct value as [v|]; [|discriminate].
  exists v. split; [reflexivity|]. unfold fromOrRandom. now rewrite H.
Qed.

Lemma fromOrRandom_omitted (value : option BytesLike) (length : nat)
    (tape : Entropy) :
  truthy value = false ->
  fromOrRandom value length tape = Ok (Bytes.random length tape).
Proof.
  intros H. destruct value as [v|]; [|reflexivity].
  unfold fromOrRandom. now rewrite H.
Qed.

Lemma fromOrRandom_given_tape (value : option BytesLike) (length : nat)
    (tape tape' : Entropy) (b : bytes) (t : Entropy) :
  truthy value = true ->
  fromOrRandom value length tape = Ok (b, t) ->
  t = tape /\ fromOrRandom value length tape' = Ok (b, tape').
Proof.
  intros Ht H.
  destruct (fromOrRandom_given value length tape Ht) as (v & -> & E).
  rewrite E in H. apply bind_ok in H as (b' & Hb & H). injection H as <- <-.
  split; [reflexivity|].
  destruct (fromOrRandom_given (Some v) length tape' Ht) as (v' & Hv & E').
  injection Hv as <-. rewrite E', Hb. reflexivity.
Qed.

Lemma fromOrRandom_given_err (value : option BytesLike) (length : nat)
    (tape tape' : Entropy) (e : error) :
  truthy value = true ->
  fromOrRandom value length tape = Err e ->
  fromOrRandom value length tape' = Err e.
Proof.
  intros Ht H.
  destruct (fromOrRandom_given value length tape Ht) as (v & -> & E).
  destruct (fromOrRandom_given (Some v) length tape' Ht) as (v' & Hv & E').
  injection Hv as <-. rewrite E in H. rewrite E'.
  destruct (Bytes.from v); [discriminate|exact H].
Qed.

(** [pbkdf2] as the sequence of its three steps. *)
Lemma pbkdf2_steps (options : pbkdf2.Options) (tape : Entropy) :
  pbkdf2 options tape =
  (let* s := fromOrRandom (pbkdf2.salt options) 32 tape in
   let* material :=
     pbkdf2_noble sha256 (pbkdf2.password options) (fst s)
       (orDefault (pbkdf2.iterations options)) 32 in
   let* r := fromOrRandom (pbkdf2.iv options) 16 (snd s) in
   Ok (pbkdf2Key (fst r) (fst s) material
         (orDefault (pbkdf2.iterations options)), snd r)).
Proof. reflexivity. Qed.

(** [scrypt] as the sequence of its three steps. *)
Lemma scrypt_steps (options : scrypt.Options) (tape : Entropy) :
  scrypt options tape =
  (let* s := fromOrRandom (scrypt.salt options) 32 tape in
   let* material :=
     scrypt_noble (scrypt.password options) (fst s)
       (orDefault (scrypt.n options)) 1 8 32 in
   let* r := fromOrRandom (scrypt.iv options) 16 (snd s) in
   Ok (scryptKey (fst r) (fst s) material (orDefault (scrypt.n options)),
       snd r)).
Proof. reflexivity. Qed.

(** X1.  When the caller supplies both salt and iv, a derivation takes
    nothing from the random source: the entropy is handed back untouched and
    the outcome, key or failure, is the same under any other entropy. *)
Theorem derivation_without_entropy (tape tape' : Entropy) :
  (forall options,
     truthy (pbkdf2.salt options) = true ->
     truthy (pbkdf2.iv options) = true ->
     match pbkdf2 options tape with
     | Ok (key, t) => t = tape /\ pbkdf2 options tape' = Ok (key, tape')
     | Err e => pbkdf2 options tape' = Err e
     end)
  /\
  (forall options,
     truthy (scrypt.salt options) = true ->
     truthy (scrypt.iv options) = true ->
     match scrypt options tape with
     | Ok (key, t) => t = tape /\ scrypt options tape' = Ok (key, tape')
     | Err e => scrypt options tape' = Err e
     end).
Proof.
  split; intros options Hsalt Hiv.
  - rewrite !pbkdf2_steps.
    destruct (fromOrRandom (pbkdf2.salt options) 32 tape) as [[salt t]|e] eqn:Es.
    + destruct (fromOrRandom_given_tape _ _ _ tape' _ _ Hsalt Es) as [-> Es'].
      rewrite Es'. cbn [bind fst snd].
      destruct (pbkdf2_noble _ _ _ _ _) as [material|e]; cbn [bind];
        [|reflexivity].
      destruct (fromOrRandom (pbkdf2.iv options) 16 tape) as [[iv t]|e] eqn:Ei.
      * destruct (fromOrRandom_given_tape _ _ _ tape' _ _ Hiv Ei) as [-> Ei'].
        rewrite Ei'. cbn [bind fst snd]. auto.
      * rewrite (fromOrRandom_given_err _ _ _ tape' _ Hiv Ei). reflexivity.
    + rewrite (fromOrRandom_given_err _ _ _ tape' _ Hsalt Es). reflexivity.
  - rewrite !scrypt_steps.
    destruct (fromOrRandom (scrypt.salt options) 32 tape) as [[salt t]|e] eqn:Es.
    + destruct (fromOrRandom_given_tape _ _ _ tape' _ _ Hsalt Es) as [-> Es'].
      rewrite Es'. cbn [bind fst snd].
      destruct (scrypt_noble _ _ _ _ _ _) as [material|e]; cbn [bind];
        [|reflexivity].
      destruct (fromOrRandom (scrypt.iv options) 16 tape) as [[iv t]|e] eqn:Ei.
      * destruct (fromOrRandom_given_tape _ _ _ tape' _ _ Hiv Ei) as [-> Ei'].
        rewrite Ei'. cbn [bind fst snd]. auto.
      * rewrite (fromOrRandom_given_err _ _ _ tape' _ Hiv Ei). reflexivity.
    + rewrite (fromOrRandom_given_err _ _ _ tape' _ Hsalt Es). reflexivity.
Qed.

Lemma derivation_without_entropy_witness :
  pbkdf2 options0 (fun _ => xff) = Ok (key0, fun _ => xff) /\
  scrypt scryptOptions0 (fun _ => xff) = Ok (scryptKey0, fun _ => xff).
Proof.
  destruct (derivation_without_entropy tape0 (fun _ => xff)) as [Hp Hs].
  split.
  - pose proof (Hp options0 eq_refl eq_refl) as H.
    assert (pbkdf2 options0 tape0 = Ok (key0, tape0)) as E
      by (vm_compute; reflexivity).
    rewrite E in H. exact (proj2 H).
  - pose proof (Hs scryptOptions0 eq_refl eq_refl) as H.
    assert (scrypt scryptOptions0 tape0 = Ok (scryptKey0, tape0)) as E
      by (vm_compute; reflexivity).
    rewrite E in H. exact (proj2 H).
Defined.

Lemma taken_shift (tape : Entropy) (k start length : nat) :
  taken (fun i => tape (k + i)) start length = taken tape (k + start) length.
Proof.
  unfold taken. revert start. induction length as [|n IH]; intros start;
    cbn [seq map]; [reflexivity|].
  f_equal. rewrite IH. now rewrite Nat.add_succ_r.
Qed.

Lemma random_taken (length : nat) (tape : Entropy) :
  Bytes.random length tape =
  (taken tape 0 length, fun i => tape (length + i)).
Proof. reflexivity. Qed.

(** X2.  When salt and iv are both left out, [pbkdf2] and [scrypt] draw the
    salt first and the iv second: the salt recorded in kdfparams is the hex
    of the first 32 random bytes, the iv is the next 16, and exactly 48 bytes
    of entropy are used up. *)
Theorem default_salt_then_iv (tape : Entropy) :
  (forall options key tape',
     truthy (pbkdf2.salt options) = false ->
     truthy (pbkdf2.iv options) = false ->
     pbkdf2 options tape = Ok (key, tape') ->
     Key.kdfparams key =
       Pbkdf2Params (orDefault (pbkdf2.iterations options)) 32 "hmac-sha256"
         (Hex.digits (taken tape 0 32)) /\
     Key.iv key = taken tape 32 16 /\
     List.length (Key.iv key) = 16 /\
     (forall i, tape' i = tape (48 + i)))
  /\
  (forall options key tape',
     truthy (scrypt.salt options) = false ->
     truthy (scrypt.iv options) = false ->
     scrypt options tape = Ok (key, tape') ->
     Key.kdfparams key =
       ScryptParams 32 (orDefault (scrypt.n options)) 8 1
         (Hex.digits (taken tape 0 32)) /\
     Key.iv key = taken tape 32 16 /\
     List.length (Key.iv key) = 16 /\
     (forall i, tape' i = tape (48 + i))).
Proof.
  split; intros options key tape' Hsalt Hiv H.
  - rewrite pbkdf2_steps, (fromOrRandom_omitted _ 32 tape Hsalt) in H.
    rewrite random_taken in H. cbn [bind fst snd] in H.
    destruct (pbkdf2_noble _ _ _ _ _) as [material|e]; cbn [bind] in H;
      [|discriminate].
    rewrite (fromOrRandom_omitted _ 16 _ Hiv), random_taken in H.
    cbn [bind fst snd] in H. injection H as <- <-.
    cbn [pbkdf2Key Key.kdfparams Key.iv].
    split; [reflexivity|]. split; [exact (taken_shift tape 32 0 16)|]. split.
    + unfold taken. now rewrite length_map, length_seq.
    + intros i. reflexivity.
  - rewrite scrypt_steps, (fromOrRandom_omitted _ 32 tape Hsalt) in H.
    rewrite random_taken in H. cbn [bind fst snd] in H.
    destruct (scrypt_noble _ _ _ _ _ _) as [material|e]; cbn [bind] in H;
      [|discriminate].
    rewrite (fromOrRandom_omitted _ 16 _ Hiv), random_taken in H.
    cbn [bind fst snd] in H. injection H as <- <-.
    cbn [scryptKey Key.kdfparams Key.iv].
    split; [reflexivity|]. split; [exact (taken_shift tape 32 0 16)|]. split.
    + unfold taken. now rewrite length_map, length_seq.
    + intros i. reflexivity.
Qed.

Lemma default_salt_then_iv_witness :
  (exists key tape',
     pbkdf2 freshOptions tape0 = Ok (key, tape') /\
     Key.iv key = taken tape0 32 16 /\ tape' 0 = tape0 48) /\
  (exists key tape',
     scrypt freshScryptOptions tape0 = Ok (key, tape') /\
     Key.iv key = taken tape0 32 16 /\ tape' 0 = tape0 48).
Proof.
  split.
  - assert (exists key tape', pbkdf2 freshOptions tape0 = Ok (key, tape'))
      as (key & tape' & E) by (eexists; eexists; vm_compute; reflexivity).
    exists key, tape'. split; [exact E|].
    destruct (proj1 (default_salt_then_iv tape0) freshOptions key tape'
                eq_refl eq_refl E) as (_ & Hiv & _ & Htape).
    split; [exact Hiv|apply Htape].
  - assert (exists key tape', scrypt freshScryptOptions tape0 = Ok (key, tape'))
      as (key & tape' & E) by (eexists; eexists; vm_compute; reflexivity).
    exists key, tape'. split; [exact E|].
    destruct (proj2 (default_salt_then_iv tape0) freshScryptOptions key tape'
                eq_refl eq_refl E) as (_ & Hiv & _ & Htape).
    split; [exact Hiv|apply Htape].
Defined.

(** ** From a derivation to a record and back *)

Lemma pbkdf2_ok_parts (options : pbkdf2.Options) (tape : Entropy) (key : Key)
    (tape' : Entropy) :
  pbkdf2 options tape = Ok (key, tape') ->
  exists salt tapeS material iv,
    fromOrRandom (pbkdf2.salt options) 32 tape = Ok (salt, tapeS) /\
    pbkdf2_noble sha256 (pbkdf2.password options) salt
      (orDefault (pbkdf2.iterations options)) 32 = Ok material /\
    fromOrRandom (pbkdf2.iv options) 16 tapeS = Ok (iv, tape') /\
    List.length material = 32 /\
    key = pbkdf2Key iv salt material (orDefault (pbkdf2.iterations options)).
Proof.
  rewrite pbkdf2_steps. intros H.
  apply bind_ok in H as ([salt tapeS] & Hs & H).
  apply bind_ok in H as (material & Hm & H).
  apply bind_ok in H as ([iv t] & Hi & H).
  cbn [fst snd] in *. injection H as <- <-.
  exists salt, tapeS, material, iv. repeat split; try assumption.
  apply (length_pbkdf2_noble _ _ _ _ _ Hm).
Qed.

Lemma scrypt_ok_parts (options : scrypt.Options) (tape : Entropy) (key : Key)
    (tape' : Entropy) :
  scrypt options tape = Ok (key, tape') ->
  exists salt tapeS material iv,
    fromOrRandom (scrypt.salt options) 32 tape = Ok (salt, tapeS) /\
    scrypt_noble (scrypt.password options) salt
      (orDefault (scrypt.n options)) 1 8 32 = Ok material /\
    fromOrRandom (scrypt.iv options) 16 tapeS = Ok (iv, tape') /\
    List.length material = 32 /\
    key = scryptKey iv salt material (orDefault (scrypt.n options)).
Proof.
  rewrite scrypt_steps. intros H.
  apply bind_ok in H as ([salt tapeS] & Hs & H).
  apply bind_ok in H as (material & Hm & H).
  apply bind_ok in H as ([iv t] & Hi & H).
  cbn [fst snd] in *. injection H as <- <-.
  exists salt, tapeS, material, iv. repeat split; try assumption.
  apply (length_scrypt_noble _ _ _ _ _ _ _ Hm).
Qed.

Lemma omitted_iv_length (value : option BytesLike) (tape : Entropy)
    (iv : bytes) (tape' : Entropy) :
  truthy value = false ->
  fromOrRandom value 16 tape = Ok (iv, tape') ->
  List.length iv = 16.
Proof.
  intros Ht H. rewrite (fromOrRandom_omitted _ 16 tape Ht), random_taken in H.
  assert (iv = taken tape 0 16) as -> by congruence.
  unfold taken. now rewrite length_map, length_seq.
Qed.

(** A key with 32 bytes of material behind lowercase digits and a 16-byte
    iv seals any private key, and opens what it sealed. *)
Lemma sealed_and_opened (key : Key) (material : bytes) (pk : bytes)
    (id : option string) (tape : Entropy) (as_ : option As) :
  Key.key key tt = Hex.digits material ->
  List.length material = 32 ->
  List.length (Key.iv key) = 16 ->
  exists keystore tape',
    encrypt (OfBytes pk) key id tape = Ok (keystore, tape') /\
    decrypt keystore key as_ = Ok (rendered as_ pk).
Proof.
  intros Hkey Hlen Hiv.
  assert (decoded (Key.key key tt) = Ok material) as Hk
    by (rewrite Hkey; apply from_prefixed_digits).
  pose proof (encrypt_decoded (OfBytes pk) key id tape material pk Hk
                ltac:(lia) eq_refl Hiv) as E.
  cbv zeta in E. eexists. eexists. split; [exact E|].
  apply (decrypt_encrypt (OfBytes pk) pk key id tape _ _ as_ eq_refl E).
Qed.

(** X3.  A key that [pbkdf2] or [scrypt] returned, with the iv left out or
    with an iv of 16 bytes, always encrypts, and decrypting the record with
    that key gives the private key back. *)
Theorem derived_key_seals_and_opens (pk : bytes) (id : option string)
    (as_ : option As) :
  (forall options tape key tape1,
     pbkdf2 options tape = Ok (key, tape1) ->
     truthy (pbkdf2.iv options) = false \/ List.length (Key.iv key) = 16 ->
     exists keystore tape2,
       encrypt (OfBytes pk) key id tape1 = Ok (keystore, tape2) /\
       decrypt keystore key as_ = Ok (rendered as_ pk))
  /\
  (forall options tape key tape1,
     scrypt options tape = Ok (key, tape1) ->
     truthy (scrypt.iv options) = false \/ List.length (Key.iv key) = 16 ->
     exists keystore tape2,
       encrypt (OfBytes pk) key id tape1 = Ok (keystore, tape2) /\
       decrypt keystore key as_ = Ok (rendered as_ pk)).
Proof.
  split; intros options tape key tape1 H Hiv.
  - apply pbkdf2_ok_parts in H
      as (salt & tapeS & material & iv & _ & _ & Hi & Hlen & ->).
    apply (sealed_and_opened _ material); [reflexivity|exact Hlen|].
    cbn [pbkdf2Key Key.iv] in *.
    destruct Hiv as [Ht|Hl]; [|exact Hl].
    apply (omitted_iv_length _ _ _ _ Ht Hi).
  - apply scrypt_ok_parts in H
      as (salt & tapeS & material & iv & _ & _ & Hi & Hlen & ->).
    apply (sealed_and_opened _ material); [reflexivity|exact Hlen|].
    cbn [scryptKey Key.iv] in *.
    destruct Hiv as [Ht|Hl]; [|exact Hl].
    apply (omitted_iv_length _ _ _ _ Ht Hi).
Qed.

Lemma derived_key_seals_and_opens_witness :
  (exists keystore tape2,
     encrypt (OfBytes privateKey0) key0 None tape0 = Ok (keystore, tape2) /\
     decrypt keystore key0 None = Ok (rendered None privateKey0)) /\
  (exists keystore tape2,
     encrypt (OfBytes privateKey0) scryptKey0 None tape0 =
       Ok (keystore, tape2) /\
     decrypt keystore scryptKey0 None = Ok (rendered None privateKey0)).
Proof.
  destruct (derived_key_seals_and_opens privateKey0 None None) as [Hp Hs].
  split.
  - apply (Hp options0 tape0 key0 tape0).
    + vm_compute. reflexivity.
    + right. reflexivity.
  - apply (Hs scryptOptions0 tape0 scryptKey0 tape0).
    + vm_compute. reflexivity.
    + right. reflexivity.
Defined.

Lemma truthy_prefixed (text : string) : truthy (Some (prefixed text)) = true.
Proof. reflexivity. Qed.

Lemma fromOrRandom_prefixed_digits (value : bytes) (length : nat)
    (tape : Entropy) :
  fromOrRandom (Some (prefixed (Hex.digits value))) length tape =
  Ok (value, tape).
Proof.
  unfold fromOrRandom. rewrite truthy_prefixed, from_prefixed_digits.
  reflexivity.
Qed.

(** X4.  A record carries what is needed to derive its key again: for a key
    that [pbkdf2] (or [scrypt]) returned and a record [encrypt] made with
    it, deriving with the same password, the cost and salt of the record's
    kdfparams and the iv of its cipherparams returns the very same key,
    whatever the random source, and so opens the record. *)
Theorem record_rederives_its_key (privateKey : BytesLike) (id : option string)
    (tape' : Entropy) :
  (forall options tape key tape1 keystore tape2,
     pbkdf2 options tape = Ok (key, tape1) ->
     encrypt privateKey key id tape1 = Ok (keystore, tape2) ->
     exists options',
       rederivePbkdf2 (pbkdf2.password options) (Keystore.crypto keystore) =
         Some options' /\
       pbkdf2 options' tape' = Ok (key, tape'))
  /\
  (forall options tape key tape1 keystore tape2,
     scrypt options tape = Ok (key, tape1) ->
     encrypt privateKey key id tape1 = Ok (keystore, tape2) ->
     exists options',
       rederiveScrypt (scrypt.password options) (Keystore.crypto keystore) =
         Some options' /\
       scrypt options' tape' = Ok (key, tape')).
Proof.
  split; intros options tape key tape1 keystore tape2 H He.
  - apply pbkdf2_ok_parts in H
      as (salt & tapeS & material & iv & _ & Hm & _ & _ & ->).
    destruct (encrypt_ok_shape _ _ _ _ _ _ He)
      as (key_ & value_ & _ & _ & _ & _ & Hc & _).
    cbv zeta in Hc. rewrite Hc.
    unfold rederivePbkdf2.
    cbn [Crypto.kdfparams Crypto.cipherparams CipherParams.iv pbkdf2Key
         Key.kdfparams Key.iv].
    eexists. split; [reflexivity|].
    rewrite pbkdf2_steps.
    cbn [pbkdf2.salt pbkdf2.iv pbkdf2.iterations pbkdf2.password orDefault].
    rewrite fromOrRandom_prefixed_digits. cbn [bind fst snd].
    rewrite Hm. cbn [bind].
    rewrite fromOrRandom_prefixed_digits. reflexivity.
  - apply scrypt_ok_parts in H
      as (salt & tapeS & material & iv & _ & Hm & _ & _ & ->).
    destruct (encrypt_ok_shape _ _ _ _ _ _ He)
      as (key_ & value_ & _ & _ & _ & _ & Hc & _).
    cbv zeta in Hc. rewrite Hc.
    unfold rederiveScrypt.
    cbn [Crypto.kdfparams Crypto.cipherparams CipherParams.iv scryptKey
         Key.kdfparams Key.iv].
    eexists. split; [reflexivity|].
    rewrite scrypt_steps.
    cbn [scrypt.salt scrypt.iv scrypt.n scrypt.password orDefault].
    rewrite fromOrRandom_prefixed_digits. cbn [bind fst snd].
    rewrite Hm. cbn [bind].
    rewrite fromOrRandom_prefixed_digits. reflexivity.
Qed.

Lemma record_rederives_its_key_witness :
  exists options',
    rederivePbkdf2 "testpassword" crypto0 = Some options' /\
    pbkdf2 options' (fun _ => xff) = Ok (key0, fun _ => xff).
Proof.
  apply (proj1 (record_rederives_its_key (OfBytes privateKey0)
                  (Some "k0"%string) (fun _ => xff))
           options0 tape0 key0 tape0 keystore0 tape0).
  - vm_compute. reflexivity.
  - vm_compute. reflexivity.
Defined.

(** ** What the key must have, and what is never checked *)

(** X5.  The mac binds a record to the second half of the key material
    only.  A key with the same material[16:32] but another material[0:16] or
    another 16-byte iv passes the check, and [decrypt] then returns the
    ciphertext run under that other cipher key and iv: the private key
    only if the two keystreams agree. *)
Theorem mac_binds_mac_key_only (pk : bytes) (key key' : Key)
    (id : option string) (tape : Entropy) (keystore : Keystore)
    (tape' : Entropy) (as_ : option As) (key_ key_' : bytes) :
  encrypt (OfBytes pk) key id tape = Ok (keystore, tape') ->
  decoded (Key.key key tt) = Ok key_ ->
  decoded (Key.key key' tt) = Ok key_' ->
  16 < List.length key_' ->
  firstn 16 (skipn 16 key_') = firstn 16 (skipn 16 key_) ->
  List.length (Key.iv key') = 16 ->
  decrypt keystore key' as_ =
  Ok (rendered as_
        (Noble.processCtr (firstn 16 key_') (Key.iv key')
           (Noble.processCtr (firstn 16 key_) (Key.iv key) pk))).
Proof.
  intros He Hk Hk' Hlen' Hmac Hiv'.
  destruct (encrypt_ok_shape _ _ _ _ _ _ He)
    as (m & v & Hm & _ & Hv & _ & Hc & _).
  assert (m = key_) as -> by congruence.
  assert (v = pk) as -> by (cbn [Bytes.from] in Hv; congruence).
  cbv zeta in Hc.
  rewrite (decrypt_decoded keystore key' as_ key_'
             (Noble.processCtr (firstn 16 key_) (Key.iv key) pk)
             (Hash.keccak256
                (Bytes.concat (firstn 16 (skipn 16 key_))
                   (Noble.processCtr (firstn 16 key_) (Key.iv key) pk)))
             Hk' Hlen').
  - rewrite Hmac, isEqual_refl, ctr_ok; [|rewrite length_firstn; lia|exact Hiv'].
    reflexivity.
  - rewrite Hc. apply from_prefixed_digits.
  - rewrite Hc. apply from_prefixed_digits.
Qed.

Lemma mac_binds_mac_key_only_witness :
  decrypt keystore0 (withIv (repeat xff 16) key0) (Some AsBytes) =
    Ok (OfBytes
          (Noble.processCtr (firstn 16 material0) (repeat xff 16)
             (Noble.processCtr (firstn 16 material0) (zeros 16) privateKey0)))
  /\
  Noble.processCtr (firstn 16 material0) (repeat xff 16)
    (Noble.processCtr (firstn 16 material0) (zeros 16) privateKey0)
  <> privateKey0.
Proof.
  split.
  - apply (mac_binds_mac_key_only privateKey0 key0
             (withIv (repeat xff 16) key0) (Some "k0"%string) tape0 keystore0
             tape0 (Some AsBytes) material0 material0).
    + vm_compute. reflexivity.
    + vm_compute. reflexivity.
    + vm_compute. reflexivity.
    + vm_compute. lia.
    + reflexivity.
    + reflexivity.
  - vm_compute. discriminate.
Defined.

Lemma slice_16_32_short (value : bytes) :
  List.length value <= 16 ->
  Bytes.slice value 16 32 = Err SliceOffsetOutOfBounds.
Proof.
  intros H. unfold Bytes.slice, Bytes.size.
  replace (List.length value - 1 <? 16) with true; [reflexivity|].
  symmetry. apply Nat.ltb_lt. lia.
Qed.

(** X6.  Key material of 16 bytes or fewer is refused when it is split:
    [decrypt] fails with the slice-offset error before it reads anything of
    the record, and [encrypt] fails with it once the private key has been
    converted. *)
Theorem short_material_is_refused (key : Key) (key_ : bytes) :
  decoded (Key.key key tt) = Ok key_ ->
  List.length key_ <= 16 ->
  (forall keystore as_,
     decrypt keystore key as_ = Err SliceOffsetOutOfBounds)
  /\
  (forall privateKey id tape,
     is_ok (Bytes.from privateKey) = true ->
     encrypt privateKey key id tape = Err SliceOffsetOutOfBounds).
Proof.
  unfold decoded. intros Hk Hlen. split.
  - intros keystore as_. unfold decrypt. rewrite Hk. cbn [bind].
    rewrite slice_0. cbn [bind]. now rewrite slice_16_32_short.
  - intros privateKey id tape Hv. apply is_ok_true in Hv as (value_ & Hv).
    unfold encrypt.
    destruct (match id with Some i => (i, tape) | None => _ end) as [i t].
    rewrite Hk. cbn [bind]. rewrite Hv. cbn [bind].
    rewrite slice_0. cbn [bind]. now rewrite slice_16_32_short.
Qed.

Lemma short_material_is_refused_witness :
  decrypt malformed0 (withKeyText "00112233445566778899aabbccddeeff" key0)
    None = Err SliceOffsetOutOfBounds /\
  encrypt (OfBytes privateKey0)
    (withKeyText "00112233445566778899aabbccddeeff" key0) None tape0 =
    Err SliceOffsetOutOfBounds.
Proof.
  destruct (short_material_is_refused
              (withKeyText "00112233445566778899aabbccddeeff" key0)
              (firstn 16 (Noble.pack (map (fun i => Z.of_nat (17 * i))
                                        (seq 0 16)))))
    as [Hd He].
  - vm_compute. reflexivity.
  - vm_compute. lia.
  - split; [apply Hd|apply He; reflexivity].
Defined.

Lemma slices_of_first_32 (m m' : bytes) :
  firstn 32 m = firstn 32 m' ->
  Bytes.slice m 0 16 = Bytes.slice m' 0 16 /\
  Bytes.slice m 16 32 = Bytes.slice m' 16 32.
Proof.
  intros H. split.
  - rewrite !slice_0.
    change (firstn 16 m) with (firstn (Nat.min 16 32) m).
    change (firstn 16 m') with (firstn (Nat.min 16 32) m').
    now rewrite <- !firstn_firstn, H.
  - assert (Nat.min 32 (List.length m) = Nat.min 32 (List.length m')) as Hlen
      by (rewrite <- !length_firstn, H; reflexivity).
    destruct (Nat.le_gt_cases (List.length m) 16) as [Hs|Hl].
    + rewrite !slice_16_32_short by lia. reflexivity.
    + rewrite !slice_ok by (unfold Bytes.size; lia).
      change (32 - 16) with 16.
      rewrite !firstn_skipn_comm. cbn [Nat.add]. now rewrite H.
Qed.

(** X7.  Only the first 32 bytes of the key material count, and nothing
    checks that there are 32: two key texts whose decoded bytes agree on
    their first 32 give the same record under [encrypt] and the same outcome
    under [decrypt]. *)
Theorem material_beyond_32_is_ignored (key : Key) (text : string)
    (m m' : bytes) :
  decoded (Key.key key tt) = Ok m ->
  decoded text = Ok m' ->
  firstn 32 m = firstn 32 m' ->
  (forall privateKey id tape,
     encrypt privateKey (withKeyText text key) id tape =
     encrypt privateKey key id tape)
  /\
  (forall keystore as_,
     decrypt keystore (withKeyText text key) as_ = decrypt keystore key as_).
Proof.
  unfold decoded. intros Hm Hm' H32.
  destruct (slices_of_first_32 m m' H32) as [H0 H16]. split.
  - intros privateKey id tape. unfold encrypt.
    cbn [withKeyText Key.key Key.iv Key.kdf Key.kdfparams].
    destruct (match id with Some i => (i, tape) | None => _ end) as [i t].
    rewrite Hm, Hm'. cbn [bind]. now rewrite H0, H16.
  - intros keystore as_. unfold decrypt.
    cbn [withKeyText Key.key Key.iv].
    rewrite Hm, Hm'. cbn [bind]. now rewrite H0, H16.
Qed.

Lemma material_beyond_32_is_ignored_witness :
  decrypt keystore0
    (withKeyText
       ("d0eeaa7f5099ab896fe30086b8b07af59ae8b91b9b17ae23c8d5e7f28e97878b"
        ++ "ffff") key0) None =
  Ok (OfHex (Bytes.toHex privateKey0)).
Proof.
  rewrite (proj2 (material_beyond_32_is_ignored key0
                    ("d0eeaa7f5099ab896fe30086b8b07af59ae8b91b9b17ae23c8d5e7f28e97878b"
                     ++ "ffff") material0 (material0 ++ [xff; xff])
                    ltac:(vm_compute; reflexivity)
                    ltac:(vm_compute; reflexivity)
                    ltac:(vm_compute; reflexivity))).
  vm_compute. reflexivity.
Defined.

(** ** The private key as text, and the record's own randomness *)

Lemma from_err (value : BytesLike) :
  is_ok (Bytes.from value) = false -> Bytes.from value = Err InvalidByteSequence.
Proof.
  destruct value as [b|h]; cbn [Bytes.from is_ok]; [discriminate|].
  destruct (Bytes.fromHex h) as [b|e] eqn:E; [discriminate|]. intros _.
  unfold Bytes.fromHex in E.
  destruct (Nat.odd _) in E; apply fromPairs_err in E; now subst.
Qed.

(** X8.  [encrypt] knows the private key through its bytes only: a hex text
    and the byte array it stands for give the same result, decrypting then
    returns the hex of those bytes (a text of odd length comes back with
    its leading zero), and a private key that is not hex makes [encrypt]
    fail with the invalid-byte-sequence error. *)
Theorem private_key_as_text (privateKey : BytesLike) (key : Key)
    (id : option string) (tape : Entropy) :
  (forall value_,
     Bytes.from privateKey = Ok value_ ->
     encrypt privateKey key id tape = encrypt (OfBytes value_) key id tape /\
     (forall keystore tape',
        encrypt privateKey key id tape = Ok (keystore, tape') ->
        decrypt keystore key None = Ok (OfHex (Bytes.toHex value_))))
  /\
  (is_ok (Bytes.from privateKey) = false ->
   encrypt privateKey key id tape = Err InvalidByteSequence).
Proof.
  split.
  - intros value_ Hv. split.
    + unfold encrypt. rewrite Hv. reflexivity.
    + intros keystore tape' H.
      apply (decrypt_encrypt privateKey value_ key id tape keystore tape' None
               Hv H).
  - intros Hv. apply from_err in Hv. unfold encrypt.
    destruct (match id with Some i => (i, tape) | None => _ end) as [i t].
    destruct (Bytes.from (prefixed (Key.key key tt))) as [key_|e] eqn:Ek;
      cbn [bind].
    + now rewrite Hv.
    + now rewrite (decoded_err _ _ Ek).
Qed.

Lemma private_key_as_text_witness :
  (exists keystore tape',
     encrypt oddHexKey key0 None tape0 = Ok (keystore, tape') /\
     decrypt keystore key0 None = Ok (OfHex "0x0123")) /\
  encrypt (OfHex "0xzz") key0 None tape0 = Err InvalidByteSequence.
Proof.
  destruct (private_key_as_text oddHexKey key0 None tape0) as [Hok _].
  destruct (private_key_as_text (OfHex "0xzz") key0 None tape0) as [_ Herr].
  split.
  - destruct (Hok [x01; x23] ltac:(vm_compute; reflexivity)) as [_ Hd].
    assert (exists keystore tape',
              encrypt oddHexKey key0 None tape0 = Ok (keystore, tape'))
      as (keystore & tape' & E) by (eexists; eexists; vm_compute; reflexivity).
    exists keystore, tape'. split; [exact E|]. apply (Hd keystore tape' E).
  - apply Herr. vm_compute. reflexivity.
Defined.

(** X9.  [encrypt] adds no randomness to the crypto section: for the same
    private key and key it is the same whatever the id and the random
    source, and so is a failure; a supplied id is stored as given and takes
    nothing from the random source. *)
Theorem encrypt_adds_no_randomness (privateKey : BytesLike) (key : Key)
    (id id' : option string) (tape tape' : Entropy) :
  match encrypt privateKey key id tape, encrypt privateKey key id' tape' with
  | Ok (a, _), Ok (b, _) => Keystore.crypto a = Keystore.crypto b
  | Err e, Err e' => e = e'
  | _, _ => False
  end
  /\
  (forall i keystore t,
     id = Some i ->
     encrypt privateKey key id tape = Ok (keystore, t) ->
     Keystore.id keystore = i /\ t = tape).
Proof.
  split.
  - unfold encrypt.
    destruct (match id with Some i => (i, tape) | None => _ end) as [i t].
    destruct (match id' with Some i => (i, tape') | None => _ end) as [i' t'].
    destruct (Bytes.from (prefixed (Key.key key tt))) as [key_|e];
      cbn [bind]; [|reflexivity].
    destruct (Bytes.from privateKey) as [value_|e]; cbn [bind]; [|reflexivity].
    destruct (Bytes.slice key_ 0 16) as [encKey|e]; cbn [bind]; [|reflexivity].
    destruct (Bytes.slice key_ 16 32) as [macKey|e]; cbn [bind];
      [|reflexivity].
    destruct (ctr encKey (Key.iv key)) as [cipher|e]; cbn [bind];
      reflexivity.
  - intros i keystore t -> H. unfold encrypt in H.
    apply bind_ok in H as (key_ & _ & H).
    apply bind_ok in H as (value_ & _ & H).
    apply bind_ok in H as (encKey & _ & H).
    apply bind_ok in H as (macKey & _ & H).
    apply bind_ok in H as (cipher & _ & H).
    injection H as <- <-. split; reflexivity.
Qed.

Lemma encrypt_adds_no_randomness_witness :
  (exists keystore t,
     encrypt (OfBytes privateKey0) key0 None (fun _ => xff) =
       Ok (keystore, t) /\
     Keystore.crypto keystore = crypto0) /\
  Keystore.id keystore0 = "k0"%string.
Proof.
  pose proof (encrypt_adds_no_randomness (OfBytes privateKey0) key0
                (Some "k0"%string) None tape0 (fun _ => xff)) as [H Hid].
  assert (encrypt (OfBytes privateKey0) key0 (Some "k0"%string) tape0 =
          Ok (keystore0, tape0)) as E by (vm_compute; reflexivity).
  split.
  - rewrite E in H.
    destruct (encrypt (OfBytes privateKey0) key0 None (fun _ => xff))
      as [[keystore t]|e]; [|contradiction].
    exists keystore, t. split; [reflexivity|]. now rewrite <- H.
  - apply (Hid "k0"%string keystore0 tape0 eq_refl E).
Defined.

(** ** Failures of a derivation, in their order *)

Lemma fromOrRandom_unusable (value : option BytesLike) (length : nat)
    (tape : Entropy) :
  usable value = false ->
  fromOrRandom value length tape = Err InvalidByteSequence.
Proof.
  unfold usable, fromOrRandom. destruct value as [v|]; [|discriminate].
  destruct (truthy (Some v)); [|discriminate].
  intros H. now rewrite (from_err v H).
Qed.

Lemma pbkdf2_noble_refused (hash : HashFn) (password : string) (salt : bytes)
    (c : Z) (dkLen : nat) :
  is_ok (Noble.pbkdf2Init c) = false ->
  pbkdf2_noble hash password salt c dkLen = Err InvalidCost.
Proof.
  unfold pbkdf2_noble.
  with_strategy transparent [Noble.pbkdf2] unfold Noble.pbkdf2.
  unfold Noble.pbkdf2Init. destruct (_ && _); [discriminate|reflexivity].
Qed.

Lemma pbkdf2_noble_accepted (password : string) (salt : bytes) (c : Z)
    (dkLen : nat) :
  is_ok (Noble.pbkdf2Init c) = true ->
  exists dk, pbkdf2_noble sha256 password salt c dkLen = Ok dk.
Proof.
  intros H. apply pbkdf2_noble_ok. unfold Noble.pbkdf2Init in H.
  destruct (1 <=? c)%Z eqn:E1; [|discriminate].
  destruct (c <=? Noble.maxSafeInteger)%Z eqn:E2; [|discriminate].
  apply Z.leb_le in E1, E2. lia.
Qed.

Lemma scrypt_noble_refused (password : string) (salt : bytes) (N r p : Z)
    (dkLen : nat) :
  is_ok (Noble.scryptInit N r p) = false ->
  scrypt_noble password salt N r p dkLen = Err InvalidCost.
Proof.
  unfold scrypt_noble.
  with_strategy transparent [Noble.scrypt] unfold Noble.scrypt.
  unfold Noble.scryptInit. destruct (_ && _); [discriminate|reflexivity].
Qed.

(** X10.  A derivation reports the first thing that is wrong, in the order
    salt, work factor, iv: a supplied salt that does not convert gives the
    invalid-byte-sequence error whatever the rest; with a good salt, a work
    factor the primitive refuses gives the invalid-cost error even if the iv
    is bad; and a supplied iv that does not convert is only reported after
    the key material has been computed. *)
Theorem derivation_failure_order (tape : Entropy) :
  (forall options,
     (usable (pbkdf2.salt options) = false ->
      pbkdf2 options tape = Err InvalidByteSequence) /\
     (usable (pbkdf2.salt options) = true ->
      is_ok (Noble.pbkdf2Init (orDefault (pbkdf2.iterations options))) = false ->
      pbkdf2 options tape = Err InvalidCost) /\
     (usable (pbkdf2.salt options) = true ->
      is_ok (Noble.pbkdf2Init (orDefault (pbkdf2.iterations options))) = true ->
      usable (pbkdf2.iv options) = false ->
      pbkdf2 options tape = Err InvalidByteSequence))
  /\
  (forall options,
     (usable (scrypt.salt options) = false ->
      scrypt options tape = Err InvalidByteSequence) /\
     (usable (scrypt.salt options) = true ->
      is_ok (Noble.scryptInit (orDefault (scrypt.n options)) 1 8) = false ->
      scrypt options tape = Err InvalidCost) /\
     (usable (scrypt.salt options) = true ->
      is_ok (Noble.scryptInit (orDefault (scrypt.n options)) 1 8) = true ->
      usable (scrypt.iv options) = false ->
      scrypt options tape = Err InvalidByteSequence)).
Proof.
  split; intros options; (split; [|split]).
  - intros Hs. rewrite pbkdf2_steps.
    now rewrite (fromOrRandom_unusable _ 32 tape Hs).
  - intros Hs Hc. rewrite pbkdf2_steps.
    destruct (is_ok_true _ (fromOrRandom_usable _ 32 tape Hs)) as (s & ->).
    cbn [bind]. now rewrite (pbkdf2_noble_refused _ _ _ _ _ Hc).
  - intros Hs Hc Hi. rewrite pbkdf2_steps.
    destruct (is_ok_true _ (fromOrRandom_usable _ 32 tape Hs)) as (s & ->).
    cbn [bind].
    destruct (pbkdf2_noble_accepted (pbkdf2.password options) (fst s) _ 32 Hc)
      as (dk & ->).
    cbn [bind]. now rewrite (fromOrRandom_unusable _ 16 _ Hi).
  - intros Hs. rewrite scrypt_steps.
    now rewrite (fromOrRandom_unusable _ 32 tape Hs).
  - intros Hs Hc. rewrite scrypt_steps.
    destruct (is_ok_true _ (fromOrRandom_usable _ 32 tape Hs)) as (s & ->).
    cbn [bind]. now rewrite (scrypt_noble_refused _ _ _ _ _ _ Hc).
  - intros Hs Hc Hi. rewrite scrypt_steps.
    destruct (is_ok_true _ (fromOrRandom_usable _ 32 tape Hs)) as (s & ->).
    cbn [bind].
    destruct (scrypt_noble_ok (scrypt.password options) (fst s) _ _ _ 32 Hc)
      as (dk & ->).
    cbn [bind]. now rewrite (fromOrRandom_unusable _ 16 _ Hi).
Qed.

Lemma derivation_failure_order_witness :
  pbkdf2 {| pbkdf2.iv := Some (OfHex "0xzz"); pbkdf2.iterations := Some 0%Z;
            pbkdf2.password := "p"; pbkdf2.salt := Some (OfHex "0xzz") |}
    tape0 = Err InvalidByteSequence /\
  pbkdf2 {| pbkdf2.iv := Some (OfHex "0xzz"); pbkdf2.iterations := Some 0%Z;
            pbkdf2.password := "p"; pbkdf2.salt := None |}
    tape0 = Err InvalidCost /\
  pbkdf2 {| pbkdf2.iv := Some (OfHex "0xzz"); pbkdf2.iterations := None;
            pbkdf2.password := "p"; pbkdf2.salt := None |}
    tape0 = Err InvalidByteSequence /\
  scrypt {| scrypt.iv := Some (OfHex "0xzz"); scrypt.n := Some 3%Z;
            scrypt.password := "p"; scrypt.salt := Some (OfHex "0xzz") |}
    tape0 = Err InvalidByteSequence /\
  scrypt {| scrypt.iv := Some (OfHex "0xzz"); scrypt.n := Some 3%Z;
            scrypt.password := "p"; scrypt.salt := None |}
    tape0 = Err InvalidCost /\
  scrypt {| scrypt.iv := Some (OfHex "0xzz"); scrypt.n := None;
            scrypt.password := "p"; scrypt.salt := None |}
    tape0 = Err InvalidByteSequence.
Proof.
  destruct (derivation_failure_order tape0) as [Hp Hs].
  split; [|split; [|split; [|split; [|split]]]].
  - apply (proj1 (Hp _)). reflexivity.
  - apply (proj1 (proj2 (Hp _))); reflexivity.
  - apply (proj2 (proj2 (Hp _))); reflexivity.
  - apply (proj1 (Hs _)). reflexivity.
  - apply (proj1 (proj2 (Hs _))); reflexivity.
  - apply (proj2 (proj2 (Hs _))); reflexivity.
Defined.

(** ** The record and its sizes *)

(** X11.  [decrypt] neither pads nor trims: the bytes it returns are as many
    as the ciphertext field decodes to, and the hex text it returns has two
    digits for each of them after its [0x]. *)
Theorem decrypt_keeps_the_length (keystore : Keystore) (key : Key) :
  (forall data,
     decrypt keystore key (Some AsBytes) = Ok (OfBytes data) ->
     exists ciphertext,
       decoded (Crypto.ciphertext (Keystore.crypto keystore)) = Ok ciphertext /\
       List.length data = List.length ciphertext)
  /\
  (forall text,
     decrypt keystore key None = Ok (OfHex text) ->
     exists ciphertext,
       decoded (Crypto.ciphertext (Keystore.crypto keystore)) = Ok ciphertext /\
       String.length text = 2 + 2 * List.length ciphertext).
Proof.
  split.
  - intros data H.
    apply decrypt_ok_inv in H as (key_ & ciphertext & _ & _ & Hc & _ & _ & E).
    exists ciphertext. split; [exact Hc|].
    cbn [rendered] in E. injection E as ->. apply length_processCtr.
  - intros text H.
    apply decrypt_ok_inv in H as (key_ & ciphertext & _ & _ & Hc & _ & _ & E).
    exists ciphertext. split; [exact Hc|].
    cbn [rendered] in E. injection E as ->.
    unfold Bytes.toHex, Hex.fromBytes. cbn [append String.length].
    now rewrite length_digits, length_processCtr.
Qed.

Lemma decrypt_keeps_the_length_witness :
  (exists ciphertext,
     decoded (Crypto.ciphertext (Keystore.crypto keystore0)) = Ok ciphertext /\
     List.length privateKey0 = List.length ciphertext) /\
  (exists ciphertext,
     decoded (Crypto.ciphertext (Keystore.crypto keystore0)) = Ok ciphertext /\
     String.length (Bytes.toHex privateKey0) = 2 + 2 * List.length ciphertext).
Proof.
  destruct (decrypt_keeps_the_length keystore0 key0) as [Hb Hh].
  split.
  - apply Hb. vm_compute. reflexivity.
  - apply Hh. vm_compute. reflexivity.
Defined.

(** X12.  Sealing is its own inverse under one key: feeding the ciphertext
    of a record back to [encrypt] with the key that made it gives a record
    whose ciphertext field is the private key in clear. *)
Theorem encrypting_twice_reveals (pk : bytes) (key : Key)
    (id id' : option string) (tape tape' : Entropy) (keystore : Keystore)
    (tape1 : Entropy) :
  encrypt (OfBytes pk) key id tape = Ok (keystore, tape1) ->
  exists keystore' tape2,
    encrypt (prefixed (Crypto.ciphertext (Keystore.crypto keystore))) key id'
      tape' = Ok (keystore', tape2) /\
    decoded (Crypto.ciphertext (Keystore.crypto keystore')) = Ok pk.
Proof.
  intros H.
  destruct (encrypt_ok_shape _ _ _ _ _ _ H)
    as (key_ & value_ & Hk & Hlen & Hv & Hiv & Hc & _).
  cbn [Bytes.from] in Hv. injection Hv as <-. cbv zeta in Hc.
  pose proof (encrypt_decoded
                (prefixed (Crypto.ciphertext (Keystore.crypto keystore))) key
                id' tape' key_
                (Noble.processCtr (firstn 16 key_) (Key.iv key) pk)
                Hk Hlen) as E.
  cbv zeta in E. rewrite E.
  - eexists. eexists. split; [reflexivity|].
    cbn [Keystore.crypto Crypto.ciphertext].
    rewrite processCtr_involutive. apply from_prefixed_digits.
  - rewrite Hc. apply from_prefixed_digits.
  - exact Hiv.
Qed.

Lemma encrypting_twice_reveals_witness :
  exists keystore' tape2,
    encrypt (prefixed (Crypto.ciphertext crypto0)) key0 None tape0 =
      Ok (keystore', tape2) /\
    decoded (Crypto.ciphertext (Keystore.crypto keystore')) = Ok privateKey0.
Proof.
  apply (encrypting_twice_reveals privateKey0 key0 (Some "k0"%string) None
           tape0 tape0 keystore0 tape0).
  vm_compute. reflexivity.
Defined.

(** ** Tampering with the bytes of a record *)

Lemma length_flipBit (i : nat) (data : bytes) :
  List.length (flipBit i data) = List.length data.
Proof.
  revert i. induction data as [|b rest IH]; intros i; [reflexivity|].
  cbn [flipBit]. destruct (i <? 8); cbn [List.length]; [reflexivity|].
  now rewrite IH.
Qed.

Lemma xor_byte_swap (a b c : byte) :
  Noble.xor_byte (Noble.xor_byte a b) c = Noble.xor_byte (Noble.xor_byte a c) b.
Proof.
  unfold Noble.xor_byte. rewrite !Byte.to_bits_of_bits.
  destruct (Byte.to_bits a) as (a0 & a1 & a2 & a3 & a4 & a5 & a6 & a7).
  destruct (Byte.to_bits b) as (b0 & b1 & b2 & b3 & b4 & b5 & b6 & b7).
  destruct (Byte.to_bits c) as (c0 & c1 & c2 & c3 & c4 & c5 & c6 & c7).
  cbn [Noble.xor_bits].
  assert (forall x y z, xorb (xorb x y) z = xorb (xorb x z) y) as E
    by (intros [|] [|] [|]; reflexivity).
  now rewrite (E a0), (E a1), (E a2), (E a3), (E a4), (E a5), (E a6), (E a7).
Qed.

(** A flipped bit goes through the xor with any stream unchanged. *)
Lemma xor_bytes_flipBit (i : nat) (data stream : bytes) :
  Noble.xor_bytes (flipBit i data) stream =
  flipBit i (Noble.xor_bytes data stream).
Proof.
  unfold Noble.xor_bytes. revert i stream.
  induction data as [|b rest IH]; intros i [|s stream]; try reflexivity.
  - cbn [flipBit]. destruct (i <? 8); reflexivity.
  - cbn [flipBit]. destruct (i <? 8) eqn:E;
      cbn [combine map fst snd flipBit]; rewrite E.
    + now rewrite xor_byte_swap.
    + now rewrite IH.
Qed.

(** The counter mode is malleable: a bit flipped in the input is the same
    bit flipped in the output. *)
Lemma processCtr_flipBit (key nonce : bytes) (i : nat) (buf : bytes) :
  Noble.processCtr key nonce (flipBit i buf) =
  flipBit i (Noble.processCtr key nonce buf).
Proof.
  with_strategy transparent [Noble.processCtr] unfold Noble.processCtr.
  rewrite length_flipBit. apply xor_bytes_flipBit.
Qed.

Lemma rendered_inj (as_ : option As) (a b : bytes) :
  rendered as_ a = rendered as_ b -> a = b.
Proof.
  assert (Hex.digits a = Hex.digits b -> a = b) as Hdigits.
  { intros E. pose proof (from_prefixed_digits a) as Ha. rewrite E in Ha.
    rewrite from_prefixed_digits in Ha. congruence. }
  destruct as_ as [[|]|]; cbn [rendered]; intros E; injection E as E; auto.
Qed.

(** X13.  The mac of a record [encrypt] produced is the only mac the key
    accepts for it.  Any other mac text that decodes (longer, shorter or
    with other bytes) makes [decrypt] with the same key fail as a corrupt
    keystore; so does, in particular, the mac with any one of its 256 bits
    flipped. *)
Theorem mac_change_is_detected (privateKey : BytesLike) (key : Key)
    (id : option string) (tape : Entropy) (keystore : Keystore)
    (tape' : Entropy) (as_ : option As) :
  encrypt privateKey key id tape = Ok (keystore, tape') ->
  exists mac,
    decoded (Crypto.mac (Keystore.crypto keystore)) = Ok mac /\
    List.length mac = 32 /\
    (forall text mac',
       decoded text = Ok mac' ->
       mac' <> mac ->
       decrypt (withCrypto (setMac text) keystore) key as_ =
         Err CorruptKeystore) /\
    (forall i,
       i < 8 * 32 ->
       flipBit i mac <> mac /\
       decrypt (withCrypto (setMac (Hex.digits (flipBit i mac))) keystore)
         key as_ = Err CorruptKeystore).
Proof.
  intros H.
  destruct (encrypt_ok_shape _ _ _ _ _ _ H)
    as (key_ & value_ & Hk & Hlen & Hv & Hiv & Hc & _).
  cbv zeta in Hc.
  set (ciphertext := Noble.processCtr (firstn 16 key_) (Key.iv key) value_) in *.
  set (mac := Hash.keccak256
                (Bytes.concat (firstn 16 (skipn 16 key_)) ciphertext)) in *.
  assert (decoded (Crypto.ciphertext (Keystore.crypto keystore)) = Ok ciphertext)
    as Hct by (rewrite Hc; apply from_prefixed_digits).
  assert (List.length mac = 32) as Hmac by apply length_keccak256.
  assert (forall text mac',
            decoded text = Ok mac' -> mac' <> mac ->
            decrypt (withCrypto (setMac text) keystore) key as_ =
              Err CorruptKeystore) as Hany.
  { intros text mac' Ht Hneq.
    rewrite (decrypt_decoded (withCrypto (setMac text) keystore) key as_
               key_ ciphertext mac' Hk Hlen Hct Ht).
    rewrite isEqual_neq; [reflexivity|]. fold mac. congruence. }
  exists mac.
  split; [rewrite Hc; apply from_prefixed_digits|].
  split; [exact Hmac|]. split; [exact Hany|].
  intros i Hi.
  assert (flipBit i mac <> mac) as Hneq by (apply flipBit_neq; lia).
  split; [exact Hneq|].
  apply (Hany _ (flipBit i mac)); [apply from_prefixed_digits|exact Hneq].
Qed.

(** X14.  What a flipped ciphertext bit can do.  For a record [encrypt]
    produced, writing back the ciphertext with one bit flipped leaves
    [decrypt] with the same key two outcomes and no third: the corrupt
    keystore error when the digest over macKey and the flipped ciphertext is
    not the stored mac, and otherwise the private key with that very bit
    flipped.  The unaltered private key is never returned. *)
Theorem ciphertext_flip_outcome (privateKey : BytesLike) (key : Key)
    (id : option string) (tape : Entropy) (keystore : Keystore)
    (tape' : Entropy) (as_ : option As) :
  encrypt privateKey key id tape = Ok (keystore, tape') ->
  exists key_ value_ ciphertext mac,
    decoded (Key.key key tt) = Ok key_ /\
    Bytes.from privateKey = Ok value_ /\
    decoded (Crypto.ciphertext (Keystore.crypto keystore)) = Ok ciphertext /\
    decoded (Crypto.mac (Keystore.crypto keystore)) = Ok mac /\
    List.length ciphertext = List.length value_ /\
    decrypt keystore key as_ = Ok (rendered as_ value_) /\
    forall i,
      i < 8 * List.length ciphertext ->
      decrypt
        (withCrypto (setCiphertext (Hex.digits (flipBit i ciphertext)))
           keystore)
        key as_ =
      (if Bytes.isEqual
            (Hash.keccak256
               (firstn 16 (skipn 16 key_) ++ flipBit i ciphertext))
            mac
       then Ok (rendered as_ (flipBit i value_))
       else Err CorruptKeystore)
      /\
      decrypt
        (withCrypto (setCiphertext (Hex.digits (flipBit i ciphertext)))
           keystore)
        key as_ <> Ok (rendered as_ value_).
Proof.
  intros H.
  destruct (encrypt_ok_shape _ _ _ _ _ _ H)
    as (key_ & value_ & Hk & Hlen & Hv & Hiv & Hc & _).
  cbv zeta in Hc.
  set (ciphertext := Noble.processCtr (firstn 16 key_) (Key.iv key) value_) in *.
  set (mac := Hash.keccak256
                (Bytes.concat (firstn 16 (skipn 16 key_)) ciphertext)) in *.
  assert (decoded (Crypto.ciphertext (Keystore.crypto keystore)) = Ok ciphertext)
    as Hct by (rewrite Hc; apply from_prefixed_digits).
  assert (decoded (Crypto.mac (Keystore.crypto keystore)) = Ok mac)
    as Hmac by (rewrite Hc; apply from_prefixed_digits).
  assert (List.length (firstn 16 key_) = 16) as Hck
    by (rewrite length_firstn; lia).
  assert (Noble.processCtr (firstn 16 key_) (Key.iv key) ciphertext = value_)
    as Hback by apply processCtr_involutive.
  exists key_, value_, ciphertext, mac.
  split; [exact Hk|]. split; [exact Hv|]. split; [exact Hct|].
  split; [exact Hmac|]. split; [apply length_processCtr|]. split.
  { rewrite (decrypt_decoded keystore key as_ key_ ciphertext mac Hk Hlen
               Hct Hmac).
    unfold mac. rewrite isEqual_refl, ctr_ok by assumption.
    cbn [bind Noble.decrypt]. now rewrite Hback. }
  intros i Hi.
  assert (decrypt
            (withCrypto (setCiphertext (Hex.digits (flipBit i ciphertext)))
               keystore)
            key as_ =
          if Bytes.isEqual
               (Hash.keccak256
                  (firstn 16 (skipn 16 key_) ++ flipBit i ciphertext))
               mac
          then Ok (rendered as_ (flipBit i value_))
          else Err CorruptKeystore) as Hout.
  { rewrite (decrypt_decoded
               (withCrypto (setCiphertext (Hex.digits (flipBit i ciphertext)))
                  keystore)
               key as_ key_ (flipBit i ciphertext) mac Hk Hlen
               (from_prefixed_digits _) Hmac).
    change (Bytes.concat (firstn 16 (skipn 16 key_)) (flipBit i ciphertext))
      with (firstn 16 (skipn 16 key_) ++ flipBit i ciphertext).
    destruct (Bytes.isEqual _ mac); [|reflexivity].
    rewrite ctr_ok by assumption. cbn [bind Noble.decrypt].
    now rewrite processCtr_flipBit, Hback. }
  split; [exact Hout|].
  rewrite Hout. destruct (Bytes.isEqual _ mac); [|discriminate].
  intros E. injection E as E. apply rendered_inj in E.
  apply (flipBit_neq i value_); [|exact E].
  now rewrite <- (length_processCtr (firstn 16 key_) (Key.iv key) value_).
Qed.

Lemma mac_change_is_detected_witness :
  decrypt (withCrypto (setMac "28c8") keystore0) key0 None =
    Err CorruptKeystore
  /\
  decrypt
    (withCrypto
       (setMac (Hex.digits (flipBit 0 (Hash.keccak256
          (skipn 16 material0 ++
           Noble.processCtr (firstn 16 material0) (zeros 16) privateKey0)))))
       keystore0)
    key0 None = Err CorruptKeystore.
Proof.
  destruct (mac_change_is_detected (OfBytes privateKey0) key0
              (Some "k0"%string) tape0 keystore0 tape0 None)
    as (mac & Hm & Hlen & Hany & Hflip).
  - vm_compute. reflexivity.
  - assert (mac =
            Hash.keccak256
              (skipn 16 material0 ++
               Noble.processCtr (firstn 16 material0) (zeros 16) privateKey0))
      as -> by (vm_compute in Hm; injection Hm as <-; vm_compute; reflexivity).
    split.
    + apply (Hany "28c8"%string [x28; xc8]).
      * vm_compute. reflexivity.
      * intros E. apply (f_equal (@List.length byte)) in E.
        rewrite Hlen in E. discriminate E.
    + apply (Hflip 0). lia.
Defined.

Lemma ciphertext_flip_outcome_witness :
  decrypt
    (withCrypto
       (setCiphertext (Hex.digits (flipBit 9
          (Noble.processCtr (firstn 16 material0) (zeros 16) privateKey0))))
       keystore0)
    key0 None = Err CorruptKeystore
  /\
  decrypt
    (withCrypto
       (setCiphertext (Hex.digits (flipBit 9
          (Noble.processCtr (firstn 16 material0) (zeros 16) privateKey0))))
       keystore0)
    key0 None <> Ok (OfHex (Bytes.toHex privateKey0)).
Proof.
  destruct (ciphertext_flip_outcome (OfBytes privateKey0) key0
              (Some "k0"%string) tape0 keystore0 tape0 None)
    as (key_ & value_ & ciphertext & mac & Hk & Hv & Hc & Hm & _ & _ & Hflip).
  - vm_compute. reflexivity.
  - assert (key_ = material0) as ->
      by (vm_compute in Hk; injection Hk as <-; reflexivity).
    assert (value_ = privateKey0) as ->
      by (cbn [Bytes.from] in Hv; injection Hv as <-; reflexivity).
    assert (ciphertext =
            Noble.processCtr (firstn 16 material0) (zeros 16) privateKey0) as ->
      by (vm_compute in Hc; injection Hc as <-; vm_compute; reflexivity).
    destruct (Hflip 9 ltac:(vm_compute; lia)) as [Hout Hnot].
    split; [|exact Hnot].
    rewrite Hout. vm_compute in Hm. injection Hm as <-.
    vm_compute. reflexivity.
Defined.
